(** * A numeric vector template: shallow embedding of [src/main.cc]

    The C++ class template [Vector<T>] owns a heap buffer [T* _elem] of
    [_size] cells.  The embedding keeps that structure: buffers live in a
    store indexed by locations, a [Vector] value is the pair of the buffer
    pointer and the size, and every member function is a computation in a
    state-and-exception monad over the store.  The element type [T] is a
    parameter, described by the operations the template applies to it.

    The instance for [double] is IEEE binary64, as given by the primitive
    floats and their specification in [SpecFloat].  The numeric tolerance
    of [find_pu_vector] is established over the real values of the stored
    numbers, from error bounds for the rounded operations.

    The random-fill constructor draws from the standard library's uniform
    distributions.  For [double] a draw is the value of the library's
    formula at a number of [[0, 1)], and the range of a draw is derived from
    the rounding of that formula. *)

From Stdlib Require Import ZArith QArith Floats Reals Lra Lia Psatz.
From stdpp Require Import gmap list strings.

(** Decimal literals denote the nearest binary64 value, as they do in C++. *)
Set Warnings "-inexact-float".

(** ** The element type [T] *)

(** What the template needs from [T]: the values [T()]/[T(0)], [T(-1)] and
    [T(1)], the four arithmetic operators, [operator==], the conversion back
    to [T] of [std::sqrt], the test [std::abs(x) > eps] with [eps = 1.0E-5],
    and the two type traits queried by the random-fill constructor.  [Tle] is
    the order of [T], used to state range properties only. *)
Class Scalar (T : Type) := {
  T0 : T;
  Tm1 : T;
  T1 : T;
  Tadd : T → T → T;
  Tsub : T → T → T;
  Tmul : T → T → T;
  Tdiv : T → T → T;
  Tsqrt : T → T;
  Teqb : T → T → bool;
  abs_gt_eps : T → bool;
  Tle : T → T → Prop;
  is_integral : bool;
  is_floating_point : bool
}.

(** [T = double]: IEEE 754 binary64 with round-to-nearest-even, as provided by
    the kernel's primitive floats. *)
Definition eps : float := 0x1.4f8b588e368f1p-17%float.

#[export] Instance double : Scalar float := {|
  T0 := 0%float;
  Tm1 := (-1)%float;
  T1 := 1%float;
  Tadd := PrimFloat.add;
  Tsub := PrimFloat.sub;
  Tmul := PrimFloat.mul;
  Tdiv := PrimFloat.div;
  Tsqrt := PrimFloat.sqrt;
  Teqb := PrimFloat.eqb;
  abs_gt_eps := fun x => PrimFloat.ltb eps (PrimFloat.abs x);
  Tle := fun x y => PrimFloat.leb x y = true;
  is_integral := false;
  is_floating_point := true
|}.

(** ** Exceptions and outcomes *)

Inductive exception :=
| out_of_range (what : string)
| invalid_argument (what : string).

(** The error kinds of the specification are these exceptions. *)
Definition IndexOutOfRange : exception := out_of_range "Index out of range".
Definition DimensionMismatch : exception :=
  invalid_argument "Vectors must have the same dimension".
Definition DivideByZero : exception := invalid_argument "Cannot divide by zero".
Definition ZeroVector : exception := invalid_argument "Cannot normalize zero vector".
Definition UnsupportedType : exception := invalid_argument "Type not supported".

(** A call returns, throws, or has undefined behaviour ([Fault]: an access
    outside a live buffer or to a cell that was never written). *)
Inductive outcome (A : Type) :=
| Ok (a : A)
| Throw (e : exception)
| Fault.
Arguments Ok {A} a.
Arguments Throw {A} e.
Arguments Fault {A}.

Definition loc := positive.

(** A pointer [T*]: [None] is [nullptr]. *)
Definition ptr := option loc.

Record Vector := { _elem : ptr; _size : nat }.

(** The random source of one random-fill construction: the constructor seeds
    a fresh [std::mt19937] from [std::random_device] and calls [dist(gen)]
    once per cell, so the values it receives are inputs of the program.
    [uniform_int_distribution lo hi i] is the value of the [i]-th call for
    the distribution built from [(lo, hi)], and likewise for the real one. *)
Record random_source (T : Type) := {
  uniform_int_distribution : T → T → nat → T;
  uniform_real_distribution : T → T → nat → T
}.
Arguments uniform_int_distribution {T} _ _ _ _.
Arguments uniform_real_distribution {T} _ _ _ _.

(** [size_t] is 64 bits wide; the difference of two sizes wraps around. *)
Definition size_t_sub (n m : nat) : Z := (Z.of_nat n - Z.of_nat m) mod 2 ^ 64.

(** [std::abs(d) > eps] for a [size_t] difference [d]: [d] is not negative,
    so its absolute value is [d] itself, compared with [1.0E-5] as a number
    (the conversion of an integer to [double] is monotone and exact on 0 and
    1, and [eps] lies strictly between them). *)
Definition size_abs_gt_eps (d : Z) : bool :=
  negb (Qle_bool (inject_Z (Z.abs d)) (1 # 100000)).

(** ** The size of an array *)

(** [sizeof(T)] in bytes.  [new T[n]] throws [std::bad_array_new_length]
    when [n * sizeof(T)] exceeds [PTRDIFF_MAX], the largest size of an
    object.  [new_array] below has no such failure, and the store has room
    for every array: [std::bad_alloc], which depends on the memory of the
    machine, is outside the model.  The sizes [new_array] is called with in
    a member function of a live vector are sizes of arrays that exist.
    Where the size is an argument of its own, the theorems ask for
    [array_fits]. *)
Class ElementSize (T : Type) := sizeof : positive.

Definition array_fits {T} `{ElementSize T} (n : nat) : Prop :=
  (Z.of_nat n * Z.pos sizeof <= 2 ^ 63 - 1)%Z.

#[export] Instance double_size : ElementSize float := 8%positive.

(** ** Output streams *)

(** [std::ostream], as [operator<<] uses it.  A stream is a state of some
    type [stream]: the characters written so far together with the
    formatting flags, the field width and the error state.  The two
    insertions of the loop, [os << x] for an element and [os << " "], take
    the stream from one state to the next; what they append depends on the
    state (a field width pads the next insertion only, and a stream in an
    error state takes nothing).  The exception mask of the stream is the
    default one, with which an insertion does not throw. *)
Record ostream (T stream : Type) := {
  shl_elem : T → stream → stream;
  shl_chars : string → stream → stream
}.
Arguments shl_elem {T stream} _ _ _.
Arguments shl_chars {T stream} _ _ _.

Section VectorT.
Context {T : Type} `{Scalar T}.

(** A buffer cell is [None] until it is first written: [new T[n]] leaves the
    cells of an arithmetic type indeterminate. *)
Local Abbreviation heap := (gmap loc (list (option T))).

Definition M (A : Type) : Type := heap → outcome A * heap.

Definition ret {A} (a : A) : M A := fun h => (Ok a, h).

Definition bind {A B} (m : M A) (k : A → M B) : M B := fun h =>
  match m h with
  | (Ok a, h') => k a h'
  | (Throw e, h') => (Throw e, h')
  | (Fault, h') => (Fault, h')
  end.

Definition throw {A} (e : exception) : M A := fun h => (Throw e, h).

Local Notation "x ← m ; k" := (bind m (fun x => k))
  (at level 20, m at level 100, k at level 200, only parsing).
Local Notation "m ;; k" := (bind m (fun _ => k))
  (at level 100, k at level 200, right associativity).

(** [new T[n]] *)
Definition new_array (n : nat) : M ptr := fun h =>
  let l := fresh (dom h) in (Ok (Some l), <[l := replicate n None]> h).

(** [delete[] p] *)
Definition delete_array (p : ptr) : M unit := fun h =>
  match p with
  | None => (Ok tt, h)
  | Some l =>
      match h !! l with
      | Some _ => (Ok tt, delete l h)
      | None => (Fault, h)
      end
  end.

(** reading [p[i]] *)
Definition load (p : ptr) (i : nat) : M T := fun h =>
  match p with
  | Some l =>
      match h !! l with
      | Some cells =>
          match cells !! i with
          | Some (Some x) => (Ok x, h)
          | _ => (Fault, h)
          end
      | None => (Fault, h)
      end
  | None => (Fault, h)
  end.

(** [p[i] = x] *)
Definition store (p : ptr) (i : nat) (x : T) : M unit := fun h =>
  match p with
  | Some l =>
      match h !! l with
      | Some cells =>
          if decide (i < length cells)
          then (Ok tt, <[l := <[i := Some x]> cells]> h)
          else (Fault, h)
      | None => (Fault, h)
      end
  | None => (Fault, h)
  end.

(** [for (size_t j = i; j < i + n; ++j) body(j)] *)
Fixpoint for_range (i n : nat) (body : nat → M unit) : M unit :=
  match n with
  | 0 => ret tt
  | S n' => body i;; for_range (S i) n' body
  end.

(** [Vector()] *)
Definition Vector_default : M Vector :=
  ret {| _elem := None; _size := 0 |}.

(** [Vector(size_t size, const T& value = T())] *)
Definition Vector_fill (size : nat) (value : T) : M Vector :=
  p ← new_array size;
  for_range 0 size (fun i => store p i value);;
  ret {| _elem := p; _size := size |}.

(** [Vector(size_t size, T low_bound, T up_bound)].  A constructor that
    throws leaves no object behind; its buffer stays allocated. *)
Definition Vector_random (gen : random_source T)
    (size : nat) (low_bound up_bound : T) : M Vector :=
  p ← new_array size;
  if is_integral then
    for_range 0 size (fun i =>
      store p i (uniform_int_distribution gen low_bound up_bound i));;
    ret {| _elem := p; _size := size |}
  else if is_floating_point then
    for_range 0 size (fun i =>
      store p i (uniform_real_distribution gen low_bound up_bound i));;
    ret {| _elem := p; _size := size |}
  else throw (invalid_argument "Type not supported").

(** [Vector(const Vector& other)] *)
Definition Vector_copy (other : Vector) : M Vector :=
  p ← new_array (_size other);
  for_range 0 (_size other) (fun i =>
    x ← load (_elem other) i; store p i x);;
  ret {| _elem := p; _size := _size other |}.

(** [~Vector()] *)
Definition Vector_destroy (this : Vector) : M unit :=
  delete_array (_elem this).

Definition Get_Dim (this : Vector) : nat := _size this.

(** [operator[]]: the element behind the returned reference. *)
Definition operator_index (this : Vector) (index : nat) : M T :=
  if decide (_size this ≤ index)
  then throw (out_of_range "Index out of range")
  else load (_elem this) index.

(** The three elementwise operators share their shape: [op] is [+], [-]
    or [*] on [T].  The local [result] is returned in place. *)
Definition elementwise (op : T → T → T) (this other : Vector) : M Vector :=
  if decide (_size this ≠ _size other)
  then throw (invalid_argument "Vectors must have the same dimension")
  else
    result ← Vector_fill (_size this) T0;
    for_range 0 (_size this) (fun i =>
      x ← load (_elem this) i;
      y ← load (_elem other) i;
      store (_elem result) i (op x y));;
    ret result.

(** [operator+], [operator-] and [operator*(const Vector<T>&)] *)
Definition operator_plus : Vector → Vector → M Vector := elementwise Tadd.
Definition operator_minus : Vector → Vector → M Vector := elementwise Tsub.
Definition operator_times : Vector → Vector → M Vector := elementwise Tmul.

(** [operator*(const T& scalar)] *)
Definition operator_times_scalar (this : Vector) (scalar : T) : M Vector :=
  result ← Vector_fill (_size this) T0;
  for_range 0 (_size this) (fun i =>
    x ← load (_elem this) i; store (_elem result) i (Tmul x scalar));;
  ret result.

(** [operator/(const T& scalar)] *)
Definition operator_div (this : Vector) (scalar : T) : M Vector :=
  if Teqb scalar T0
  then throw (invalid_argument "Cannot divide by zero")
  else
    result ← Vector_fill (_size this) T0;
    for_range 0 (_size this) (fun i =>
      x ← load (_elem this) i; store (_elem result) i (Tdiv x scalar));;
    ret result.

(** The loop of [operator==], from index [i] with [n] iterations left: it
    returns [false] at the first pair further apart than [eps]. *)
Fixpoint eq_loop (this other : Vector) (i n : nat) : M bool :=
  match n with
  | 0 => ret true
  | S n' =>
      x ← load (_elem this) i;
      y ← load (_elem other) i;
      if abs_gt_eps (Tsub x y) then ret false
      else eq_loop this other (S i) n'
  end.

(** [operator==] *)
Definition operator_eq (this other : Vector) : M bool :=
  if size_abs_gt_eps (size_t_sub (_size this) (_size other))
  then ret false
  else eq_loop this other 0 (_size this).

(** [operator!=] *)
Definition operator_ne (this other : Vector) : M bool :=
  b ← operator_eq this other; ret (negb b).

(** The first loop of [normalize]: [length_squared += _elem[i] * _elem[i]]. *)
Fixpoint sum_squares (this : Vector) (i n : nat) (length_squared : T) : M T :=
  match n with
  | 0 => ret length_squared
  | S n' =>
      x ← load (_elem this) i;
      sum_squares this (S i) n' (Tadd length_squared (Tmul x x))
  end.

(** [normalize()] *)
Definition normalize (this : Vector) : M unit :=
  length_squared ← sum_squares this 0 (_size this) T0;
  if Teqb length_squared T0
  then throw (invalid_argument "Cannot normalize zero vector")
  else
    let length := Tsqrt length_squared in
    for_range 0 (_size this) (fun i =>
      x ← load (_elem this) i; store (_elem this) i (Tdiv x length)).

(** A local object of automatic storage: its destructor runs when [body]
    is left, by return or by exception. *)
Definition scope {A} (v : Vector) (body : M A) : M A := fun h =>
  match body h with
  | (Ok a, h') =>
      match Vector_destroy v h' with
      | (Ok _, h'') => (Ok a, h'')
      | (Throw e, h'') => (Throw e, h'')
      | (Fault, h'') => (Fault, h'')
      end
  | (Throw e, h') =>
      match Vector_destroy v h' with
      | (Fault, h'') => (Fault, h'')
      | (_, h'') => (Throw e, h'')
      end
  | (Fault, h') => (Fault, h')
  end.

(** The local that is returned: it is destroyed only when [body] throws. *)
Definition returned {A} (v : Vector) (body : M A) : M A := fun h =>
  match body h with
  | (Throw e, h') =>
      match Vector_destroy v h' with
      | (Fault, h'') => (Fault, h'')
      | (_, h'') => (Throw e, h'')
      end
  | r => r
  end.

(** [find_pu_vector(const Vector<T>& a)].  In [(b * a_norm) * a_norm] both
    products are the elementwise [operator*(const Vector<T>&)], the
    non-template overload being preferred; the temporary [b * a_norm] dies
    at the end of the full expression. *)
Definition find_pu_vector (gen : random_source T) (a : Vector) : M Vector :=
  a_norm ← Vector_copy a;
  scope a_norm (
    normalize a_norm;;
    b ← Vector_random gen (Get_Dim a) Tm1 T1;
    scope b (
      project ← (tmp ← operator_times b a_norm;
                 scope tmp (operator_times tmp a_norm));
      scope project (
        b_orth ← operator_minus b project;
        returned b_orth (normalize b_orth;; ret b_orth)))).

(** The non-const [operator[]] as the target of an assignment,
    [this[index] = x]: the same range test, then a write through the
    returned reference. *)
Definition operator_index_assign (this : Vector) (index : nat) (x : T) : M unit :=
  if decide (_size this ≤ index)
  then throw (out_of_range "Index out of range")
  else store (_elem this) index x.

(** [operator=(const Vector& other)].  Objects have no address in the
    embedding, so the outcome of the test [this != &other] is the argument
    [same_object]; when it is [true], [this] and [other] are one object.  The
    value returned is [*this] after the assignment. *)
Definition operator_assign (same_object : bool) (this other : Vector) : M Vector :=
  if same_object then ret this
  else
    this' ← (if decide (_size this ≠ _size other) then
               delete_array (_elem this);;
               p ← new_array (_size other);
               ret {| _elem := p; _size := _size other |}
             else ret this);
    for_range 0 (_size this') (fun i =>
      x ← load (_elem other) i; store (_elem this') i x);;
    ret this'.

(** [sqrt_elements()]: the cells of [result] are written through its
    [operator[]]. *)
Definition sqrt_elements (this : Vector) : M Vector :=
  result ← Vector_fill (_size this) T0;
  returned result (
    for_range 0 (_size this) (fun i =>
      x ← load (_elem this) i;
      operator_index_assign result i (Tsqrt x));;
    ret result).

(** [operator<<(std::ostream& os, const Vector& vector)].  The index [i] is
    compared with the [size_t] value [vector._size - 1]. *)
Fixpoint shl_loop {stream} (out : ostream T stream) (vector : Vector)
    (i n : nat) (os : stream) : M stream :=
  match n with
  | 0 => ret os
  | S n' =>
      x ← load (_elem vector) i;
      let os := shl_elem out x os in
      let os := if decide (Z.of_nat i ≠ size_t_sub (_size vector) 1)
                then shl_chars out " " os else os in
      shl_loop out vector (S i) n' os
  end.

Definition operator_shl {stream} (out : ostream T stream) (os : stream)
    (vector : Vector) : M stream :=
  shl_loop out vector 0 (_size vector) os.

(** The elements [xs] inserted in order with one [" "] between neighbours. *)
Fixpoint joined {stream} (out : ostream T stream) (xs : list T) (os : stream)
    : stream :=
  match xs with
  | [] => os
  | x :: xs' =>
      let os := shl_elem out x os in
      match xs' with
      | [] => os
      | _ :: _ => joined out xs' (shl_chars out " " os)
      end
  end.

End VectorT.

(** ** What a vector holds, and the squared length *)

(** [holds h v xs]: in the store [h], the vector [v] is a well-formed object
    whose elements are [xs]. *)
Definition holds {T} (h : gmap loc (list (option T))) (v : Vector) (xs : list T) : Prop :=
  length xs = _size v ∧
  match _elem v with
  | Some l => h !! l = Some (Some <$> xs)
  | None => xs = []
  end.

(** The value of [length_squared] after the first loop of [normalize]. *)
Definition length_squared {T} `{Scalar T} (xs : list T) : T :=
  fold_left (fun acc x => Tadd acc (Tmul x x)) xs T0.

(** What [normalize] leaves in the buffer when it returns. *)
Definition normalized {T} `{Scalar T} (xs : list T) : list T :=
  (fun x => Tdiv x (Tsqrt (length_squared xs))) <$> xs.

(** The values a random-fill construction of [n] cells stores, in order. *)
Definition draws {T} `{Scalar T} (gen : random_source T) (n : nat) (lo hi : T) : list T :=
  (if is_integral then uniform_int_distribution gen lo hi
   else uniform_real_distribution gen lo hi) <$> seq 0 n.

(** The test [operator==] applies to a pair of elements, negated: the pair
    passes when [std::abs(x - y) > eps] is false. *)
Definition close {T} `{Scalar T} (x y : T) : bool := negb (abs_gt_eps (Tsub x y)).

Definition all_close {T} `{Scalar T} (xs ys : list T) : bool :=
  forallb (fun p => close p.1 p.2) (zip xs ys).

(** The elements of [b - (b * a_norm) * a_norm] in [find_pu_vector]. *)
Definition pu_orth {T} `{Scalar T} (bs an : list T) : list T :=
  zip_with Tsub bs (zip_with Tmul (zip_with Tmul bs an) an).

(** Two facts about [T] that hold for the arithmetic types and are used below:
    [T() == T()], and the tolerance test does not depend on the order of the
    two elements compared. *)
Class LawfulScalar (T : Type) `{Scalar T} : Prop := {
  Teqb_T0 : Teqb T0 T0 = true;
  abs_gt_eps_sub_sym : ∀ x y : T, abs_gt_eps (Tsub x y) = abs_gt_eps (Tsub y x)
}.

(** What is claimed of one binary operator [f] that computes [op]
    elementwise: it throws the dimension error exactly on different sizes; on
    equal sizes it returns a vector in a fresh buffer holding the elementwise
    results; either way both operands hold what they held. *)
Definition elementwise_contract {T} `{Scalar T}
    (f : Vector → Vector → M Vector) (op : T → T → T)
    (h : gmap loc (list (option T))) (a b : Vector) (xs ys : list T) : Prop :=
  ((f a b h).1 = Throw DimensionMismatch ↔ _size a ≠ _size b) ∧
  (_size a = _size b →
     ∃ l, h !! l = None ∧
       f a b h = (Ok {| _elem := Some l; _size := _size a |},
                  <[l := Some <$> zip_with op xs ys]> h)) ∧
  holds (f a b h).2 a xs ∧ holds (f a b h).2 b ys.

(** The store after [delete[] p]. *)
Definition released {T} (p : ptr) (h : gmap loc (list (option T)))
    : gmap loc (list (option T)) :=
  match p with
  | Some l => delete l h
  | None => h
  end.

(** The store after the cells of the buffer at [p] were overwritten: the
    null pointer has no cells. *)
Definition overwritten {T} (p : ptr) (xs : list T) (h : gmap loc (list (option T)))
    : gmap loc (list (option T)) :=
  match p with
  | Some l => <[l := Some <$> xs]> h
  | None => h
  end.

(** ** Real values of binary64 numbers *)

(** The tolerance claims about [find_pu_vector] are claims about real
    numbers: the Euclidean norm and the dot product of the values the
    result stores.  A finite [double] denotes the real number
    [(-1)^s * m * 2^e]. *)

Section Binary64Values.
Local Open Scope R_scope.

Definition bpow (e : Z) : R := powerRZ 2 e.


Definition SF2R (f : spec_float) : R :=
  match f with
  | S754_finite s m e => (if s then -1 else 1) * (IZR (Zpos m) * bpow e)
  | _ => 0
  end.

Definition is_fin (f : spec_float) : Prop :=
  match f with
  | S754_finite _ _ _ | S754_zero _ => True
  | _ => False
  end.


Definition val (f : float) : R := SF2R (Prim2SF f).
Definition fin (f : float) : Prop := is_fin (Prim2SF f).



End Binary64Values.

(** ** Rounding to nearest, and the standard uniform distribution *)





(** ** Sample data: a store of [double] buffers and vectors over it *)

Module Sample.
Definition cells (xs : list float) : list (option float) := Some <$> xs.

Definition store : gmap loc (list (option float)) :=
  {[ 1%positive := cells [3; 4]%float;
     2%positive := cells [1; 2; 3]%float;
     3%positive := cells [1.00001; 2; 3]%float;
     4%positive := cells [1; 2]%float;
     5%positive := cells [1; 0; 0]%float;
     6%positive := cells [1.000001; 2; 3]%float;
     7%positive := cells [0; 0]%float ]}.

Definition v34 : Vector := {| _elem := Some 1%positive; _size := 2 |}.
Definition v123 : Vector := {| _elem := Some 2%positive; _size := 3 |}.
Definition v123_off : Vector := {| _elem := Some 3%positive; _size := 3 |}.
Definition v12 : Vector := {| _elem := Some 4%positive; _size := 2 |}.
Definition e1 : Vector := {| _elem := Some 5%positive; _size := 3 |}.
Definition v123_near : Vector := {| _elem := Some 6%positive; _size := 3 |}.
Definition v00 : Vector := {| _elem := Some 7%positive; _size := 2 |}.

(** A random source whose draws are 0.5, -0.25, 0.75, 0.75, ... *)
Definition tape (i : nat) : float :=
  match i with
  | 0 => 0.5%float
  | 1 => (-0.25)%float
  | _ => 0.75%float
  end.

Definition gen : random_source float :=
  {| uniform_int_distribution := fun _ _ => tape;
     uniform_real_distribution := fun _ _ => tape |}.


End Sample.

(** ** Sample data with special values *)

Module Edge.
Definition store : gmap loc (list (option float)) :=
  {[ 1%positive := Sample.cells [nan; 1]%float;
     2%positive := Sample.cells [5; nan]%float;
     3%positive := Sample.cells [-4; 9]%float;
     4%positive := Sample.cells [1e200; 1e200]%float ]}.

Definition v_nan_1 : Vector := {| _elem := Some 1%positive; _size := 2 |}.
Definition v_5_nan : Vector := {| _elem := Some 2%positive; _size := 2 |}.
Definition v_neg : Vector := {| _elem := Some 3%positive; _size := 2 |}.
Definition v_big : Vector := {| _elem := Some 4%positive; _size := 2 |}.

(** A formatting of elements that prints the sign only. *)
Definition sign_text (x : float) : string :=
  if PrimFloat.ltb x 0 then "-" else "+".

(** A text stream with a field width and an error state.  An insertion pads
    its text with spaces on the left up to the field width and resets the
    width; into a failed stream it writes nothing. *)
Record text_stream := { written : string; width : nat; failed : bool }.

Definition put (s : string) (os : text_stream) : text_stream :=
  if failed os then os
  else {| written :=
            written os +:+
            Nat.iter (width os - String.length s) (String (Ascii.ascii_of_nat 32)) s;
          width := 0;
          failed := false |}.

(** The insertions of a stream that prints the sign of an element. *)
Definition sign_stream : ostream float text_stream :=
  {| shl_elem := fun x => put (sign_text x);
     shl_chars := put |}.
End Edge.

(** ** Reasoning about the store and the loops *)

Section StoreLemmas.
Context {T : Type} `{Scalar T}.
Local Abbreviation heap := (gmap loc (list (option T))).
Implicit Types (h : heap) (v : Vector) (xs ys : list T) (l : loc).

Lemma fresh_lookup h : h !! fresh (dom h) = None.
Proof. apply not_elem_of_dom, is_fresh. Qed.

Lemma holds_length h v xs : holds h v xs → length xs = _size v.
Proof. by intros [? _]. Qed.

Lemma holds_intro h l n xs :
  length xs = n → h !! l = Some (Some <$> xs) →
  holds h {| _elem := Some l; _size := n |} xs.
Proof. by split. Qed.

Lemma holds_insert_fresh h v xs l cells :
  h !! l = None → holds h v xs → holds (<[l := cells]> h) v xs.
Proof.
  intros Hl [Hn Hv]. split; [done|].
  destruct (_elem v) as [l'|]; [|done].
  rewrite lookup_insert_ne; [done|congruence].
Qed.

Lemma holds_insert_ne h v xs l cells :
  _elem v ≠ Some l → holds h v xs → holds (<[l := cells]> h) v xs.
Proof.
  intros Hne [Hn Hv]. split; [done|].
  destruct (_elem v) as [l'|]; [|done].
  rewrite lookup_insert_ne; [done|congruence].
Qed.

Lemma holds_delete_ne h v xs l :
  _elem v ≠ Some l → holds h v xs → holds (delete l h) v xs.
Proof.
  intros Hne [Hn Hv]. split; [done|].
  destruct (_elem v) as [l'|]; [|done].
  rewrite lookup_delete_ne; [done|congruence].
Qed.

Lemma holds_inj h v xs ys : holds h v xs → holds h v ys → xs = ys.
Proof.
  intros [_ Hx] [_ Hy]. destruct (_elem v); [|congruence].
  rewrite Hx in Hy. injection Hy as Hy.
  by apply (inj (fmap Some)) in Hy.
Qed.

Lemma load_holds h v xs i x :
  holds h v xs → xs !! i = Some x → load (_elem v) i h = (Ok x, h).
Proof.
  intros [_ Hv] Hi. unfold load. destruct (_elem v) as [l|].
  - by rewrite Hv, list_lookup_fmap, Hi.
  - by subst xs.
Qed.

Lemma store_insert h l cells i x :
  i < length cells →
  store (Some l) i x (<[l := cells]> h) = (Ok tt, <[l := <[i := Some x]> cells]> h).
Proof.
  intros Hi. unfold store. rewrite lookup_insert_eq.
  rewrite decide_True by done. by rewrite insert_insert_eq.
Qed.

(** A loop that writes cell [j] with [g j] in iteration [j], provided the
    cells from [j] on are as the loop found them. *)
Lemma for_range_store l (g : nat → T) (body : nat → M unit) h n :
  ∀ k cells,
    length cells = k + n →
    (∀ j cells', k ≤ j < k + n → length cells' = k + n →
       (∀ i, j ≤ i → cells' !! i = cells !! i) →
       body j (<[l := cells']> h) = (Ok tt, <[l := <[j := Some (g j)]> cells']> h)) →
    for_range k n body (<[l := cells]> h)
    = (Ok tt, <[l := take k cells ++ (Some <$> (g <$> seq k n))]> h).
Proof.
  induction n as [|n IH]; intros k cells Hlen Hbody; simpl.
  - unfold ret. rewrite app_nil_r, take_ge by lia. done.
  - unfold bind. rewrite (Hbody k cells) by (done || lia).
    rewrite (IH (S k)).
    + f_equal. f_equal.
      rewrite (take_S_r _ _ (Some (g k))).
      * rewrite take_insert_ge by lia. by rewrite <- app_assoc.
      * apply list_lookup_insert_eq. lia.
    + rewrite length_insert. lia.
    + intros j cells' Hj Hlen' Hagree. apply Hbody; [lia|lia|].
      intros i Hi. rewrite Hagree by done.
      apply list_lookup_insert_ne. lia.
Qed.

Lemma seq_lookup_fmap {A} (xs : list A) (f : nat → A) :
  (∀ i x, xs !! i = Some x → f i = x) →
  f <$> seq 0 (length xs) = xs.
Proof.
  intros Hf. apply list_eq. intros i.
  rewrite list_lookup_fmap.
  destruct (xs !! i) as [x|] eqn:Hx.
  - rewrite lookup_seq_lt by (by eapply lookup_lt_Some). simpl.
    by rewrite (Hf i x).
  - rewrite lookup_seq_ge; [done|]. by apply lookup_ge_None.
Qed.

(** [Vector(size, value)] allocates one fresh buffer and fills it. *)
Lemma Vector_fill_spec h n x :
  let l := fresh (dom h) in
  Vector_fill n x h
  = (Ok {| _elem := Some l; _size := n |}, <[l := Some <$> replicate n x]> h).
Proof.
  intros l. unfold Vector_fill, bind, new_array. fold l.
  rewrite (for_range_store l (fun _ => x) _ h n 0 (replicate n None)).
  - unfold ret. do 3 f_equal. simpl. clear.
    generalize 0. induction n as [|n IH]; intros k; simpl; [done|].
    by rewrite IH.
  - by rewrite length_replicate.
  - intros j cells' Hj Hlen _. apply store_insert. lia.
Qed.

Lemma load_insert h l cells i x :
  cells !! i = Some (Some x) →
  load (Some l) i (<[l := cells]> h) = (Ok x, <[l := cells]> h).
Proof. intros Hi. unfold load. by rewrite lookup_insert_eq, Hi. Qed.

Lemma nth_lookup_Some xs i x : xs !! i = Some x → nth i xs T0 = x.
Proof. intros Hi. by apply nth_lookup_Some with (d := T0) in Hi. Qed.

Lemma lookup_nth xs i : i < length xs → xs !! i = Some (nth i xs T0).
Proof.
  intros Hi. destruct (lookup_lt_is_Some_2 xs i Hi) as [x Hx].
  by rewrite (nth_lookup_Some _ _ _ Hx).
Qed.

(** The copy constructor allocates a fresh buffer with the same elements. *)
Lemma Vector_copy_spec h other xs :
  holds h other xs →
  let l := fresh (dom h) in
  Vector_copy other h
  = (Ok {| _elem := Some l; _size := _size other |}, <[l := Some <$> xs]> h).
Proof.
  intros Hxs l. pose proof (holds_length _ _ _ Hxs) as Hn.
  unfold Vector_copy, bind, new_array. fold l.
  rewrite (for_range_store l (fun i => nth i xs T0) _ h (_size other) 0
             (replicate (_size other) None)).
  - unfold ret. do 3 f_equal. simpl. f_equal. rewrite <- Hn.
    apply seq_lookup_fmap. intros i x. apply nth_lookup_Some.
  - by rewrite length_replicate.
  - intros j cells' Hj Hlen _.
    rewrite (load_holds _ other xs j (nth j xs T0)).
    + apply store_insert. lia.
    + apply holds_insert_fresh; [apply fresh_lookup|done].
    + apply lookup_nth. lia.
Qed.

(** The random-fill constructor on a supported element type: a fresh buffer
    holding the values drawn, in order. *)
Lemma Vector_random_spec h gen n lo hi :
  is_integral || is_floating_point = true →
  let l := fresh (dom h) in
  Vector_random gen n lo hi h
  = (Ok {| _elem := Some l; _size := n |}, <[l := Some <$> draws gen n lo hi]> h).
Proof.
  intros Hty l. unfold Vector_random, bind, new_array, draws. fold l.
  destruct is_integral; [|destruct is_floating_point; [|done]].
  - rewrite (for_range_store l (uniform_int_distribution gen lo hi) _ h n 0
               (replicate n None)); [done|by rewrite length_replicate|].
    intros j cells' Hj Hlen _. apply store_insert. lia.
  - rewrite (for_range_store l (uniform_real_distribution gen lo hi) _ h n 0
               (replicate n None)); [done|by rewrite length_replicate|].
    intros j cells' Hj Hlen _. apply store_insert. lia.
Qed.

(** On any other element type it throws after the allocation. *)
Lemma Vector_random_unsupported h gen n lo hi :
  is_integral || is_floating_point = false →
  Vector_random gen n lo hi h
  = (Throw UnsupportedType, <[fresh (dom h) := replicate n None]> h).
Proof.
  intros Hty. unfold Vector_random, bind, new_array.
  destruct is_integral; [done|]. by destruct is_floating_point.
Qed.

Lemma zip_with_seq (op : T → T → T) xs ys :
  length xs = length ys →
  (fun i => op (nth i xs T0) (nth i ys T0)) <$> seq 0 (length xs)
  = zip_with op xs ys.
Proof.
  intros Hlen. apply list_eq. intros i. rewrite list_lookup_fmap.
  rewrite lookup_zip_with.
  destruct (decide (i < length xs)) as [Hi|Hi].
  - rewrite lookup_seq_lt by done. simpl.
    rewrite (lookup_nth xs i), (lookup_nth ys i) by lia. done.
  - rewrite lookup_seq_ge by lia.
    rewrite (lookup_ge_None_2 xs i) by lia. done.
Qed.

(** A loop that fills the fresh buffer [l] from the operands, which the
    store holds elsewhere. *)
Lemma map_loop h l (this : Vector) xs (f : T → T) cells :
  h !! l = None → holds h this xs → length cells = _size this →
  for_range 0 (_size this) (fun i =>
    bind (load (_elem this) i) (fun x => store (Some l) i (f x)))
    (<[l := cells]> h)
  = (Ok tt, <[l := Some <$> (f <$> xs)]> h).
Proof.
  intros Hl Hxs Hlen. pose proof (holds_length _ _ _ Hxs) as Hn.
  rewrite (for_range_store l (fun i => f (nth i xs T0)) _ h (_size this) 0 cells).
  - do 3 f_equal. simpl. f_equal. rewrite <- Hn, <- (length_fmap f xs).
    apply seq_lookup_fmap. intros i y. rewrite list_lookup_fmap.
    intros Hy. destruct (xs !! i) as [x|] eqn:Hx; [|done].
    rewrite (nth_lookup_Some _ _ _ Hx). by injection Hy.
  - done.
  - intros j cells' Hj Hlen' _. unfold bind.
    rewrite (load_holds _ this xs j (nth j xs T0)).
    + apply store_insert. lia.
    + by apply holds_insert_fresh.
    + apply lookup_nth. lia.
Qed.

(** [operator+], [operator-], [operator*] on vectors of one size. *)
Lemma elementwise_spec op h this other xs ys :
  holds h this xs → holds h other ys → _size this = _size other →
  let l := fresh (dom h) in
  elementwise op this other h
  = (Ok {| _elem := Some l; _size := _size this |},
     <[l := Some <$> zip_with op xs ys]> h).
Proof.
  intros Hxs Hys Hsz l.
  pose proof (holds_length _ _ _ Hxs) as Hn.
  pose proof (holds_length _ _ _ Hys) as Hm.
  unfold elementwise. rewrite decide_False by (intros ?; done).
  unfold bind at 1. rewrite Vector_fill_spec. fold l. simpl.
  unfold bind at 1.
  rewrite (for_range_store l (fun i => op (nth i xs T0) (nth i ys T0)) _ h
             (_size this) 0 (Some <$> replicate (_size this) T0)).
  - unfold ret. do 3 f_equal. simpl. f_equal. rewrite <- Hn.
    apply zip_with_seq. lia.
  - by rewrite length_fmap, length_replicate.
  - intros j cells' Hj Hlen' _. unfold bind.
    rewrite (load_holds _ this xs j (nth j xs T0)).
    + rewrite (load_holds _ other ys j (nth j ys T0)).
      * apply store_insert. lia.
      * apply holds_insert_fresh; [apply fresh_lookup|done].
      * apply lookup_nth. lia.
    + apply holds_insert_fresh; [apply fresh_lookup|done].
    + apply lookup_nth. lia.
Qed.

Lemma elementwise_mismatch op h this other :
  _size this ≠ _size other →
  elementwise op this other h = (Throw DimensionMismatch, h).
Proof. intros Hsz. unfold elementwise. by rewrite decide_True. Qed.

(** [operator/] by a scalar that does not compare equal to [T()]. *)
Lemma operator_div_spec h this xs scalar :
  holds h this xs → Teqb scalar T0 = false →
  let l := fresh (dom h) in
  operator_div this scalar h
  = (Ok {| _elem := Some l; _size := _size this |},
     <[l := Some <$> ((fun x => Tdiv x scalar) <$> xs)]> h).
Proof.
  intros Hxs Hs l. unfold operator_div. rewrite Hs.
  unfold bind at 1. rewrite Vector_fill_spec. fold l. simpl.
  unfold bind at 1.
  rewrite (map_loop h l this xs (fun x => Tdiv x scalar)); [done| |done|].
  - apply fresh_lookup.
  - by rewrite length_fmap, length_replicate.
Qed.

Lemma Vector_destroy_spec h v l cells :
  _elem v = Some l → h !! l = Some cells →
  Vector_destroy v h = (Ok tt, delete l h).
Proof. intros Hv Hl. unfold Vector_destroy, delete_array. by rewrite Hv, Hl. Qed.

(** The summation loop of [normalize] reads the cells in order. *)
Lemma sum_squares_spec h this xs :
  holds h this xs →
  ∀ n i acc, i + n = _size this →
    sum_squares this i n acc h
    = (Ok (fold_left (fun a x => Tadd a (Tmul x x)) (drop i xs) acc), h).
Proof.
  intros Hxs. pose proof (holds_length _ _ _ Hxs) as Hn.
  induction n as [|n IH]; intros i acc Hi; simpl.
  - rewrite drop_ge by lia. done.
  - unfold bind. rewrite (load_holds _ this xs i (nth i xs T0) Hxs)
      by (apply lookup_nth; lia).
    rewrite IH by lia.
    rewrite (drop_S xs (nth i xs T0) i) by (apply lookup_nth; lia). done.
Qed.

(** [normalize]: the store is the one it found when it throws, and has the
    buffer of [this] overwritten in place when it returns. *)
Lemma normalize_spec h this xs :
  holds h this xs →
  normalize this h
  = if Teqb (length_squared xs) T0 then (Throw ZeroVector, h)
    else (Ok tt, match _elem this with
                 | Some l => <[l := Some <$> normalized xs]> h
                 | None => h
                 end).
Proof.
  intros Hxs. pose proof (holds_length _ _ _ Hxs) as Hn.
  unfold normalize, bind at 1.
  rewrite (sum_squares_spec h this xs Hxs) by lia. rewrite drop_0.
  fold (length_squared xs).
  destruct (Teqb (length_squared xs) T0); [done|].
  destruct Hxs as [_ Hv]. destruct (_elem this) as [l|] eqn:Hl.
  - rewrite <- (insert_id h l _ Hv) at 1.
    rewrite (for_range_store l
               (fun i => Tdiv (nth i xs T0) (Tsqrt (length_squared xs)))
               _ h (_size this) 0 (Some <$> xs)).
    + do 3 f_equal. simpl. f_equal. unfold normalized.
      rewrite <- Hn, <- (length_fmap (fun x => Tdiv x (Tsqrt (length_squared xs))) xs).
      apply seq_lookup_fmap. intros i y. rewrite list_lookup_fmap.
      intros Hy. destruct (xs !! i) as [x|] eqn:Hx; [|done].
      rewrite (nth_lookup_Some _ _ _ Hx). by injection Hy.
    + rewrite length_fmap. lia.
    + intros j cells' Hj Hlen' Hagree. unfold bind.
      rewrite (load_insert _ _ _ _ (nth j xs T0)).
      * apply store_insert. lia.
      * rewrite Hagree by done. rewrite list_lookup_fmap.
        rewrite lookup_nth by lia. done.
  - subst xs. simpl in Hn. by rewrite <- Hn.
Qed.

Lemma eq_loop_spec h this other xs ys :
  holds h this xs → holds h other ys → _size this = _size other →
  ∀ n i, i + n = _size this →
    eq_loop this other i n h = (Ok (all_close (drop i xs) (drop i ys)), h).
Proof.
  intros Hxs Hys Hsz.
  pose proof (holds_length _ _ _ Hxs) as Hn.
  pose proof (holds_length _ _ _ Hys) as Hm.
  induction n as [|n IH]; intros i Hi; simpl.
  - rewrite (drop_ge xs), (drop_ge ys) by lia. done.
  - unfold bind.
    rewrite (load_holds _ this xs i (nth i xs T0) Hxs) by (apply lookup_nth; lia).
    rewrite (load_holds _ other ys i (nth i ys T0) Hys) by (apply lookup_nth; lia).
    rewrite (drop_S xs (nth i xs T0) i) by (apply lookup_nth; lia).
    rewrite (drop_S ys (nth i ys T0) i) by (apply lookup_nth; lia).
    unfold all_close. simpl. unfold close at 1. simpl.
    destruct (abs_gt_eps _); simpl; [done|].
    by rewrite IH by lia.
Qed.

(** The size test of [operator==] passes exactly on equal sizes. *)
Lemma size_abs_gt_eps_spec (n m : nat) :
  (Z.of_nat n < 2 ^ 64)%Z → (Z.of_nat m < 2 ^ 64)%Z →
  size_abs_gt_eps (size_t_sub n m) = bool_decide (n ≠ m).
Proof.
  intros Hn Hm. unfold size_abs_gt_eps, size_t_sub.
  destruct (decide (n = m)) as [->|Hne].
  - rewrite Z.sub_diag, Z.mod_0_l by lia.
    rewrite bool_decide_false by (intros ?; done). done.
  - rewrite bool_decide_true by done.
    assert (1 ≤ Z.abs ((Z.of_nat n - Z.of_nat m) mod 2 ^ 64))%Z as Hd.
    { destruct (decide (n < m)) as [Hlt|Hge].
      - rewrite <- (Z.mod_add _ 1) by lia.
        rewrite Z.mod_small by lia. lia.
      - rewrite Z.mod_small by lia. lia. }
    apply negb_true_iff, not_true_iff_false. intros Hle.
    apply Qle_bool_iff in Hle. unfold Qle in Hle. simpl in Hle. lia.
Qed.

Lemma operator_eq_spec h this other xs ys :
  holds h this xs → holds h other ys →
  (Z.of_nat (_size this) < 2 ^ 64)%Z → (Z.of_nat (_size other) < 2 ^ 64)%Z →
  operator_eq this other h
  = (Ok (bool_decide (_size this = _size other) && all_close xs ys), h).
Proof.
  intros Hxs Hys Hn Hm. unfold operator_eq.
  rewrite size_abs_gt_eps_spec by done.
  destruct (decide (_size this = _size other)) as [Hsz|Hsz].
  - rewrite bool_decide_false by (intros ?; done).
    rewrite bool_decide_true by done.
    rewrite (eq_loop_spec h this other xs ys) by (done || lia).
    by rewrite !drop_0.
  - rewrite bool_decide_true by done. by rewrite bool_decide_false.
Qed.

(** [find_pu_vector] in full: what it returns or throws, and the store it
    leaves.  Every local buffer is released; on success the store gains the
    buffer of the result. *)
Lemma find_pu_vector_spec h gen a xs :
  holds h a xs →
  ∃ l, h !! l = None ∧
    find_pu_vector gen a h
    = if Teqb (length_squared xs) T0 then (Throw ZeroVector, h)
      else if is_integral || is_floating_point then
        let bo := pu_orth (draws gen (_size a) Tm1 T1) (normalized xs) in
        if Teqb (length_squared bo) T0 then (Throw ZeroVector, h)
        else (Ok {| _elem := Some l; _size := _size a |},
              <[l := Some <$> normalized bo]> h)
      else (Throw UnsupportedType, <[l := replicate (_size a) None]> h).
Proof.
  intros Hxs. pose proof (holds_length _ _ _ Hxs) as Hn.
  unfold find_pu_vector, Get_Dim. unfold bind at 1.
  rewrite (Vector_copy_spec h a xs Hxs). cbv zeta.
  set (l1 := fresh (dom h)). assert (h !! l1 = None) as Hl1 by apply fresh_lookup.
  set (a_norm := {| _elem := Some l1; _size := _size a |}).
  set (h1 := <[l1 := Some <$> xs]> h).
  assert (holds h1 a_norm xs) as Han by (apply holds_intro; [done|apply lookup_insert_eq]).
  unfold scope at 1. unfold bind at 1.
  rewrite (normalize_spec h1 a_norm xs Han).
  destruct (Teqb (length_squared xs) T0).
  { exists l1. split; [done|].
    rewrite (Vector_destroy_spec h1 a_norm l1 (Some <$> xs)) by (done || apply lookup_insert_eq).
    unfold h1. by rewrite delete_insert_id. }
  simpl (_elem a_norm). cbv iota beta.
  unfold h1. rewrite insert_insert_eq. clear h1 Han.
  set (an := normalized xs).
  set (h2 := <[l1 := Some <$> an]> h).
  assert (length an = _size a) as Hlan by (unfold an, normalized; by rewrite length_fmap).
  assert (holds h2 a_norm an) as Han by (apply holds_intro; [done|apply lookup_insert_eq]).
  unfold bind at 1.
  set (l2 := fresh (dom h2)). assert (h2 !! l2 = None) as Hl2 by apply fresh_lookup.
  assert (l1 ≠ l2 ∧ h !! l2 = None) as [Hl12 Hl2'].
  { unfold h2 in Hl2. apply lookup_insert_None in Hl2. by destruct Hl2. }
  destruct (is_integral || is_floating_point) eqn:Hty; cycle 1.
  { rewrite Vector_random_unsupported by done. fold l2.
    exists l2. split; [done|].
    rewrite (Vector_destroy_spec _ a_norm l1 (Some <$> an)); [|done|].
    - unfold h2. rewrite delete_insert_ne by done. by rewrite delete_insert_id.
    - rewrite lookup_insert_ne by done. apply lookup_insert_eq. }
  rewrite Vector_random_spec by done. cbv zeta. fold l2.
  set (bs := draws gen (_size a) Tm1 T1).
  assert (length bs = _size a) as Hlbs
    by (unfold bs, draws; by rewrite length_fmap, length_seq).
  set (b := {| _elem := Some l2; _size := _size a |}).
  set (h3 := <[l2 := Some <$> bs]> h2).
  assert (holds h3 b bs) as Hb by (apply holds_intro; [done|apply lookup_insert_eq]).
  assert (holds h3 a_norm an) as Han3 by (by apply holds_insert_fresh).
  unfold scope at 1. unfold bind at 1. unfold bind at 1.
  unfold operator_times at 1.
  rewrite (elementwise_spec Tmul h3 b a_norm bs an Hb Han3 eq_refl). cbv zeta.
  set (l3 := fresh (dom h3)). assert (h3 !! l3 = None) as Hl3 by apply fresh_lookup.
  set (ts := zip_with Tmul bs an).
  assert (length ts = _size a) as Hlts by (unfold ts; rewrite length_zip_with; lia).
  set (tmp := {| _elem := Some l3; _size := _size b |}).
  set (h4 := <[l3 := Some <$> ts]> h3).
  assert (holds h4 tmp ts) as Htmp by (apply holds_intro; [done|apply lookup_insert_eq]).
  assert (holds h4 a_norm an) as Han4 by (by apply holds_insert_fresh).
  unfold scope at 1. unfold operator_times at 1.
  rewrite (elementwise_spec Tmul h4 tmp a_norm ts an Htmp Han4 eq_refl). cbv zeta.
  set (l4 := fresh (dom h4)). assert (h4 !! l4 = None) as Hl4 by apply fresh_lookup.
  set (pr := zip_with Tmul ts an).
  assert (length pr = _size a) as Hlpr by (unfold pr; rewrite length_zip_with; lia).
  rewrite (Vector_destroy_spec _ tmp l3 (Some <$> ts)); [|done|]; cycle 1.
  { rewrite lookup_insert_ne; [apply lookup_insert_eq|].
    intros Heq. unfold h4 in Hl4. by rewrite <- Heq, lookup_insert_eq in Hl4. }
  assert (l3 ≠ l4) as Hl34.
  { intros Heq. unfold h4 in Hl4. by rewrite <- Heq, lookup_insert_eq in Hl4. }
  assert (h3 !! l4 = None) as Hl4'.
  { unfold h4 in Hl4. by rewrite lookup_insert_ne in Hl4. }
  rewrite delete_insert_ne by done. unfold h4. rewrite delete_insert_id by done.
  set (project := {| _elem := Some l4; _size := _size tmp |}).
  set (h6 := <[l4 := Some <$> pr]> h3).
  assert (holds h6 project pr) as Hpr by (apply holds_intro; [done|apply lookup_insert_eq]).
  assert (holds h6 b bs) as Hb6 by (by apply holds_insert_fresh).
  unfold scope at 1. unfold bind at 1. unfold operator_minus at 1.
  rewrite (elementwise_spec Tsub h6 b project bs pr Hb6 Hpr eq_refl). cbv zeta.
  set (l5 := fresh (dom h6)). assert (h6 !! l5 = None) as Hl5 by apply fresh_lookup.
  fold ts. fold pr. 
  set (bo := zip_with Tsub bs pr).
  assert (length bo = _size a) as Hlbo by (unfold bo; rewrite length_zip_with; lia).
  set (b_orth := {| _elem := Some l5; _size := _size b |}).
  set (h7 := <[l5 := Some <$> bo]> h6).
  assert (holds h7 b_orth bo) as Hbo by (apply holds_intro; [done|apply lookup_insert_eq]).
  unfold returned, bind.
  rewrite (normalize_spec h7 b_orth bo Hbo).
  change (pu_orth bs an) with bo.
  assert (l4 ≠ l5 ∧ l2 ≠ l5 ∧ l1 ≠ l5 ∧ h !! l5 = None) as (Hl45 & Hl25 & Hl15 & Hl5').
  { unfold h6, h3, h2 in Hl5.
    repeat (apply lookup_insert_None in Hl5; destruct Hl5 as [Hl5 ?]). done. }
  assert (l2 ≠ l4 ∧ l1 ≠ l4) as [Hl24 Hl14].
  { unfold h3, h2 in Hl4'.
    repeat (apply lookup_insert_None in Hl4'; destruct Hl4' as [Hl4' ?]). done. }
  exists l5. split; [done|].
  destruct (Teqb (length_squared bo) T0).
  - rewrite (Vector_destroy_spec h7 b_orth l5 (Some <$> bo)) by (done || apply lookup_insert_eq).
    unfold h7. rewrite delete_insert_id by done.
    rewrite (Vector_destroy_spec h6 project l4 (Some <$> pr)) by (done || apply lookup_insert_eq).
    unfold h6. rewrite delete_insert_id by done.
    rewrite (Vector_destroy_spec h3 b l2 (Some <$> bs)) by (done || apply lookup_insert_eq).
    unfold h3. rewrite delete_insert_id by done.
    rewrite (Vector_destroy_spec h2 a_norm l1 (Some <$> an)) by (done || apply lookup_insert_eq).
    unfold h2. by rewrite delete_insert_id by done.
  - simpl (_elem b_orth). cbv iota beta. unfold ret.
    unfold h7. rewrite insert_insert_eq.
    rewrite (Vector_destroy_spec _ project l4 (Some <$> pr)); [|done|]; cycle 1.
    { rewrite lookup_insert_ne by done. apply lookup_insert_eq. }
    rewrite delete_insert_ne by done. unfold h6. rewrite delete_insert_id by done.
    rewrite (Vector_destroy_spec _ b l2 (Some <$> bs)); [|done|]; cycle 1.
    { rewrite lookup_insert_ne by done. apply lookup_insert_eq. }
    rewrite delete_insert_ne by done. unfold h3. rewrite delete_insert_id by done.
    rewrite (Vector_destroy_spec _ a_norm l1 (Some <$> an)); [|done|]; cycle 1.
    { rewrite lookup_insert_ne by done. apply lookup_insert_eq. }
    rewrite delete_insert_ne by done. unfold h2. rewrite delete_insert_id by done.
    done.
Qed.

End StoreLemmas.

(** ** The laws of [T] hold for [double] *)

Lemma SFabs_binary_round prec emax s m e :
  SFabs (binary_round prec emax s m e) = SFabs (binary_round prec emax false m e).
Proof.
  unfold binary_round. destruct (shl_align _ _ _) as [mz ez].
  unfold binary_round_aux.
  destruct (shr_fexp _ _ _ _ _) as [mrs' e'].
  destruct (shr_fexp _ _ _ _ _) as [mrs'' e''].
  destruct (shr_m mrs''); [done| |done].
  by destruct (Z.leb _ _).
Qed.

Lemma SFabs_binary_normalize_opp prec emax m e :
  SFabs (binary_normalize prec emax (- m) e false)
  = SFabs (binary_normalize prec emax m e false).
Proof.
  destruct m as [|p|p]; simpl; [done|..].
  - apply SFabs_binary_round.
  - symmetry. apply SFabs_binary_round.
Qed.

Lemma SFabs_SFsub_sym prec emax x y :
  SFabs (SFsub prec emax x y) = SFabs (SFsub prec emax y x).
Proof.
  destruct x as [sx|sx| |sx mx ex], y as [sy|sy| |sy my ey];
    try (by destruct sx, sy); try done.
  unfold SFsub. rewrite (Z.min_comm ey ex).
  rewrite <- SFabs_binary_normalize_opp. f_equal. f_equal. lia.
Qed.

Lemma double_abs_gt_eps_sub_sym (x y : float) :
  abs_gt_eps (Tsub x y) = abs_gt_eps (Tsub y x).
Proof.
  simpl. rewrite !ltb_spec, !abs_spec, !sub_spec.
  unfold SF64sub. by rewrite SFabs_SFsub_sym.
Qed.

#[export] Instance double_lawful : LawfulScalar float.
Proof. split; [reflexivity|apply double_abs_gt_eps_sub_sym]. Qed.

(** ** Binary64 rounding: digit counts and shifts *)

(** The operations of [double] are specified by [SpecFloat]: the exact
    result is truncated by [shr] to the target precision and rounded to
    nearest even.  This part relates the truncated mantissa to the exact
    one. *)

Section Shifting.
Local Open Scope Z_scope.












Lemma loc_of_shr_record_of_loc m l : loc_of_shr_record (shr_record_of_loc m l) = l.
Proof. by destruct l as [|[]]. Qed.

End Shifting.

(** ** Binary64 rounding: the rounded mantissa *)

Section RoundInteger.
Local Open Scope Z_scope.





End RoundInteger.

(** ** Binary64 rounding: the error of one rounding *)

(** Rounding a positive real, given by a truncated mantissa and a location,
    changes it by at most [2^-52] of its value plus [2^-1074]. *)

Section RoundReal.
Local Open Scope Z_scope.
Local Open Scope R_scope.


Lemma bpow_add a b : bpow (a + b) = bpow a * bpow b.
Proof. apply powerRZ_add. lra. Qed.

Lemma bpow_IZR n : (0 <= n)%Z → bpow n = IZR (2 ^ n).
Proof.
  intros Hn. unfold bpow. rewrite <- (Z2Nat.id n Hn) at 1 2.
  rewrite <- pow_powerRZ. rewrite pow_IZR. done.
Qed.




End RoundReal.

(** ** Error bounds for the operations of [SpecFloat] *)

Section SpecFloatOps.
Local Open Scope R_scope.




























End SpecFloatOps.

(** ** Error bounds for the operations of [double] *)

Section DoubleOps.
Local Open Scope R_scope.



Lemma Prim2SF_zero : Prim2SF 0 = S754_zero false.
Proof. reflexivity. Qed.






(** Subtracting a finite number from itself gives [+0]. *)
Lemma sub_self (b : float) : fin b → (b - b)%float = 0%float.
Proof.
  intros Hf. unfold fin in Hf. apply Prim2SF_inj.
  rewrite sub_spec, Prim2SF_zero. unfold SF64sub.
  destruct (Prim2SF b) as [s|s| |s m e]; try done; try (by destruct s).
  cbn [SFsub]. by rewrite Z.sub_diag.
Qed.







End DoubleOps.

(** ** Real arithmetic of a rounded normalisation *)

Section RealArithmetic.
Local Open Scope R_scope.










End RealArithmetic.

(** ** Normalising a vector of the plane in [double] *)

Section NormalizePlane.
Local Open Scope R_scope.








End NormalizePlane.

(** ** Binary64 rounding: to nearest, and monotone *)

Section RoundNearest.
Local Open Scope Z_scope.




End RoundNearest.

(** ** Binary64 rounding: the result against the finite numbers *)

Section RoundMonotone.
Local Open Scope R_scope.








End RoundMonotone.

(** ** Rounded operations against every finite number *)

Section Rounded.
Local Open Scope R_scope.










End Rounded.

(** ** The range of the standard uniform distribution *)

Section UniformReal.
Local Open Scope R_scope.







End UniformReal.

(** ** Draws for the bounds -1 and 1 *)

Section Draws.
Local Open Scope R_scope.






End Draws.

(** ** Comparison of finite numbers *)

Section Comparison.
Local Open Scope R_scope.





End Comparison.

(** ** Element access *)

(** C8: [operator[]] throws the out-of-range error exactly when the index is
    not below the size; otherwise it yields the element stored at that very
    index, and it never changes the store. *)
Theorem operator_index_contract {T} `{Scalar T}
    (h : gmap loc (list (option T))) (v : Vector) (xs : list T) (index : nat) :
  holds h v xs →
  ((operator_index v index h).1 = Throw IndexOutOfRange ↔ _size v ≤ index) ∧
  (index < _size v →
     ∃ x, xs !! index = Some x ∧ (operator_index v index h).1 = Ok x) ∧
  (operator_index v index h).2 = h.
Proof.
  intros Hxs. pose proof (holds_length _ _ _ Hxs) as Hn.
  unfold operator_index. destruct (decide (_size v ≤ index)) as [Hge|Hlt].
  - split_and!; [done|lia|done].
  - assert (index < length xs) as Hi by lia.
    rewrite (load_holds h v xs index (nth index xs T0) Hxs) by (by apply lookup_nth).
    split_and!; [split; [done|lia]| |done].
    intros _. exists (nth index xs T0). split; [by apply lookup_nth|done].
Qed.

(** ** Elementwise arithmetic *)

Lemma elementwise_contract_holds {T} `{Scalar T} (op : T → T → T)
    (h : gmap loc (list (option T))) (a b : Vector) (xs ys : list T) :
  holds h a xs → holds h b ys →
  elementwise_contract (elementwise op) op h a b xs ys.
Proof.
  intros Ha Hb. unfold elementwise_contract.
  destruct (decide (_size a = _size b)) as [Hsz|Hsz].
  - rewrite (elementwise_spec op h a b xs ys Ha Hb Hsz). simpl.
    split_and!.
    + split; [done|]. by intros [].
    + intros _. exists (fresh (dom h)). split; [apply fresh_lookup|done].
    + apply holds_insert_fresh; [apply fresh_lookup|done].
    + apply holds_insert_fresh; [apply fresh_lookup|done].
  - rewrite (elementwise_mismatch op h a b Hsz). simpl.
    split_and!; [done|by intros ?|done|done].
Qed.

(** C5: [operator+], [operator-] and the elementwise [operator*] throw the
    dimension error exactly when the sizes differ; on equal sizes each returns
    a vector in a fresh buffer holding the elementwise sum, difference or
    product; in both cases the operands hold what they held. *)
Theorem elementwise_operators {T} `{Scalar T}
    (h : gmap loc (list (option T))) (a b : Vector) (xs ys : list T) :
  holds h a xs → holds h b ys →
  elementwise_contract operator_plus Tadd h a b xs ys ∧
  elementwise_contract operator_minus Tsub h a b xs ys ∧
  elementwise_contract operator_times Tmul h a b xs ys.
Proof.
  intros Ha Hb. split_and!; by apply elementwise_contract_holds.
Qed.

(** C6: [operator/] throws the division error exactly when the scalar
    compares equal to [T()], whatever the vector, the empty one included;
    otherwise it returns a vector in a fresh buffer holding every element
    divided by the scalar; the operand holds what it held. *)
Theorem operator_div_contract {T} `{Scalar T}
    (h : gmap loc (list (option T))) (v : Vector) (xs : list T) (scalar : T) :
  holds h v xs →
  ((operator_div v scalar h).1 = Throw DivideByZero ↔ Teqb scalar T0 = true) ∧
  (Teqb scalar T0 = false →
     ∃ l, h !! l = None ∧
       operator_div v scalar h
       = (Ok {| _elem := Some l; _size := _size v |},
          <[l := Some <$> ((fun x => Tdiv x scalar) <$> xs)]> h)) ∧
  holds (operator_div v scalar h).2 v xs ∧
  (LawfulScalar T → operator_div v T0 h = (Throw DivideByZero, h)).
Proof.
  intros Hxs. split_and!.
  - destruct (Teqb scalar T0) eqn:Hs.
    + unfold operator_div. by rewrite Hs.
    + rewrite (operator_div_spec h v xs scalar Hxs Hs). simpl. split; done.
  - intros Hs. exists (fresh (dom h)). split; [apply fresh_lookup|].
    by apply operator_div_spec.
  - destruct (Teqb scalar T0) eqn:Hs.
    + unfold operator_div. by rewrite Hs.
    + rewrite (operator_div_spec h v xs scalar Hxs Hs). simpl.
      apply holds_insert_fresh; [apply fresh_lookup|done].
  - intros HL. unfold operator_div. by rewrite Teqb_T0.
Qed.

(** ** Normalisation *)

(** C4: [normalize] throws the zero-vector error exactly when the computed
    sum of squares compares equal to [T(0)], which is the case of every empty
    vector, and then the store is the one it found. *)
Theorem normalize_zero_vector {T} `{Scalar T}
    (h : gmap loc (list (option T))) (v : Vector) (xs : list T) :
  holds h v xs →
  ((normalize v h).1 = Throw ZeroVector ↔ Teqb (length_squared xs) T0 = true) ∧
  ((normalize v h).1 = Throw ZeroVector → (normalize v h).2 = h) ∧
  (LawfulScalar T → _size v = 0 → normalize v h = (Throw ZeroVector, h)).
Proof.
  intros Hxs. rewrite (normalize_spec h v xs Hxs). split_and!.
  - destruct (Teqb (length_squared xs) T0); simpl; split; done.
  - by destruct (Teqb (length_squared xs) T0).
  - intros HL Hsz. pose proof (holds_length _ _ _ Hxs) as Hn.
    destruct xs; [|simpl in Hn; lia].
    unfold length_squared. simpl. by rewrite Teqb_T0.
Qed.

(** The value of a positive finite number with a negative exponent. *)
Lemma val_scaled (f : float) m e :
  Prim2SF f = S754_finite false m e → (e <= 0)%Z →
  (val f * IZR (2 ^ (- e)) = IZR (Z.pos m))%R.
Proof.
  intros Hf He. unfold val. rewrite Hf. cbn [SF2R].
  rewrite <- (bpow_IZR (- e)) by lia.
  rewrite Rmult_1_l, Rmult_assoc, <- bpow_add.
  replace (e + - e)%Z with 0%Z by lia. change (bpow 0) with 1%R. lra.
Qed.

(** C2: when the computed sum of squares does not compare equal to [T(0)],
    [normalize] returns and leaves in the buffer of the vector, in place,
    every element divided by the square root of that sum, no other buffer
    being touched; in binary64 the vector [3, 4] becomes the pair of
    doubles nearest to 0.6 and 0.8, each within [1e-5] of the real number. *)
Theorem normalize_divides {T} `{Scalar T}
    (h : gmap loc (list (option T))) (v : Vector) (xs : list T) :
  holds h v xs → Teqb (length_squared xs) T0 = false →
  ((normalize v h).1 = Ok tt ∧
   holds (normalize v h).2 v
     ((fun x => Tdiv x (Tsqrt (length_squared xs))) <$> xs) ∧
   (∀ l, _elem v ≠ Some l → (normalize v h).2 !! l = h !! l)) ∧
  (∀ (h' : gmap loc (list (option float))) (v' : Vector),
     holds h' v' [3; 4]%float →
     (normalize v' h').1 = Ok tt ∧
     holds (normalize v' h').2 v' [0.6; 0.8]%float ∧
     (Rabs (val 0.6 - 6 / 10) <= 1 / 100000)%R ∧
     (Rabs (val 0.8 - 8 / 10) <= 1 / 100000)%R).
Proof.
  intros Hxs Hnz.
  assert (∀ (U : Type) (SU : Scalar U) (g : gmap loc (list (option U))) w zs,
            holds g w zs → Teqb (length_squared zs) T0 = false →
            (normalize w g).1 = Ok tt ∧
            holds (normalize w g).2 w (normalized zs) ∧
            (∀ l, _elem w ≠ Some l → (normalize w g).2 !! l = g !! l)) as Hgen.
  { clear. intros U SU g w zs Hzs Hnz.
    rewrite (normalize_spec g w zs Hzs), Hnz. simpl.
    pose proof (holds_length _ _ _ Hzs) as Hn.
    destruct Hzs as [_ Hw]. destruct (_elem w) as [l|] eqn:Hl.
    - split_and!; [done| |].
      + split; [unfold normalized; by rewrite length_fmap|].
        rewrite Hl. apply lookup_insert_eq.
      + intros l' Hne. apply lookup_insert_ne. congruence.
    - subst zs. split_and!; [done| |done]. split; [done|by rewrite Hl]. }
  split; [by apply Hgen|].
  intros h' v' H34. destruct (Hgen float double h' v' _ H34 eq_refl) as (Hr & Hh & _).
  pose proof (val_scaled 0.6 5404319552844595 (-53) eq_refl ltac:(done)) as H6.
  pose proof (val_scaled 0.8 7205759403792794 (-53) eq_refl ltac:(done)) as H8.
  change (2 ^ (- (-53)))%Z with 9007199254740992%Z in H6, H8.
  split_and!; [done|exact Hh|apply Rabs_le; lra|apply Rabs_le; lra].
Qed.


(** C9: [find_pu_vector] has defined behaviour on every well-formed
    argument, and whether it returns or throws, every buffer of the store it
    was called in is as it was; in particular the argument holds the same
    elements. *)
Theorem find_pu_vector_frame {T} `{Scalar T} (gen : random_source T)
    (h : gmap loc (list (option T))) (a : Vector) (xs : list T) :
  holds h a xs →
  (find_pu_vector gen a h).1 ≠ Fault ∧
  (∀ l cells, h !! l = Some cells →
     (find_pu_vector gen a h).2 !! l = Some cells) ∧
  holds (find_pu_vector gen a h).2 a xs.
Proof.
  intros Hxs. destruct (find_pu_vector_spec h gen a xs Hxs) as (l & Hl & ->).
  assert (∀ cells' l' cells, h !! l' = Some cells →
            <[l := cells']> h !! l' = Some cells) as Hfr.
  { intros cells' l' cells Hl'. rewrite lookup_insert_ne; [done|congruence]. }
  destruct (Teqb (length_squared xs) T0); [done|].
  destruct (is_integral || is_floating_point); simpl.
  - destruct (Teqb _ T0); simpl; [done|].
    split_and!; [done|apply Hfr|by apply holds_insert_fresh].
  - split_and!; [done|apply Hfr|by apply holds_insert_fresh].
Qed.

Lemma all_close_sym {T} `{LawfulScalar T} (xs ys : list T) :
  all_close xs ys = all_close ys xs.
Proof.
  unfold all_close. revert ys.
  induction xs as [|x xs IH]; intros [|y ys]; simpl; try done.
  unfold close at 1 3. by rewrite abs_gt_eps_sub_sym, IH.
Qed.

(** C10: [operator==] is symmetric. *)
Theorem operator_eq_symmetric {T} `{LawfulScalar T}
    (h : gmap loc (list (option T))) (a b : Vector) (xs ys : list T) :
  holds h a xs → holds h b ys →
  (Z.of_nat (_size a) < 2 ^ 64)%Z → (Z.of_nat (_size b) < 2 ^ 64)%Z →
  (operator_eq a b h).1 = (operator_eq b a h).1.
Proof.
  intros Ha Hb Hn Hm.
  rewrite (operator_eq_spec h a b xs ys), (operator_eq_spec h b a ys xs) by done.
  simpl. f_equal. rewrite (all_close_sym xs ys). f_equal.
  apply bool_decide_ext. split; done.
Qed.

(** ** Equality *)

Lemma all_close_true {T} `{Scalar T} (xs ys : list T) :
  length xs = length ys →
  all_close xs ys = true ↔
  ∀ i x y, xs !! i = Some x → ys !! i = Some y → abs_gt_eps (Tsub x y) = false.
Proof.
  unfold all_close. revert ys.
  induction xs as [|x xs IH]; intros [|y ys] Hlen; simpl in *; try done.
  rewrite andb_true_iff, IH by lia. unfold close. rewrite negb_true_iff.
  split.
  - intros [Hxy Hall] [|i] x' y' Hx Hy; simpl in *.
    + by simplify_eq.
    + by eapply Hall.
  - intros Hall. split; [by apply (Hall 0)|].
    intros i x' y' Hx Hy. by apply (Hall (S i)).
Qed.

(** C3, as amended. *)
Theorem operator_eq_contract {T} `{Scalar T}
    (h : gmap loc (list (option T))) (a b : Vector) (xs ys : list T) :
  holds h a xs → holds h b ys →
  (Z.of_nat (_size a) < 2 ^ 64)%Z → (Z.of_nat (_size b) < 2 ^ 64)%Z →
  (∃ r, operator_eq a b h = (Ok r, h) ∧
        operator_ne a b h = (Ok (negb r), h) ∧
        (r = true ↔
           size_abs_gt_eps (size_t_sub (_size a) (_size b)) = false ∧
           ∀ i x y, xs !! i = Some x → ys !! i = Some y →
                    abs_gt_eps (Tsub x y) = false)) ∧
  (size_abs_gt_eps (size_t_sub (_size a) (_size b)) = false ↔ _size a = _size b) ∧
  (∀ (h' : gmap loc (list (option float))) (a' b' : Vector),
     (holds h' a' [1; 2; 3]%float → holds h' b' [1.00001; 2; 3]%float →
      (operator_eq a' b' h').1 = Ok false) ∧
     (holds h' a' [1; 2; 3]%float → holds h' b' [1.000001; 2; 3]%float →
      (operator_eq a' b' h').1 = Ok true) ∧
     (holds h' a' [1; 2]%float → holds h' b' [1; 2; 3]%float →
      (operator_eq a' b' h').1 = Ok false)).
Proof.
  intros Ha Hb Hn Hm.
  pose proof (holds_length _ _ _ Ha) as Hla.
  pose proof (holds_length _ _ _ Hb) as Hlb.
  assert (size_abs_gt_eps (size_t_sub (_size a) (_size b)) = false
          ↔ _size a = _size b) as Hsz.
  { rewrite size_abs_gt_eps_spec by done.
    rewrite bool_decide_eq_false. split; [apply dec_stable|by intros ? ?]. }
  split_and!.
  - exists (bool_decide (_size a = _size b) && all_close xs ys).
    unfold operator_ne, bind.
    rewrite (operator_eq_spec h a b xs ys) by done.
    split_and!; [done|done|].
    rewrite andb_true_iff, bool_decide_eq_true, Hsz.
    split.
    + intros [Heq Hall]. split; [done|]. apply all_close_true; [lia|done].
    + intros [Heq Hall]. split; [done|]. apply all_close_true; [lia|done].
  - done.
  - intros h' a' b'.
    assert (∀ zs ws, holds h' a' zs → holds h' b' ws →
              (length zs < 4)%nat → (length ws < 4)%nat →
              (operator_eq a' b' h').1
              = Ok (bool_decide (length zs = length ws) && all_close zs ws)) as Hex.
    { intros zs ws Hzs Hws Hlz Hlw.
      pose proof (holds_length _ _ _ Hzs) as Hz.
      pose proof (holds_length _ _ _ Hws) as Hw.
      rewrite (operator_eq_spec h' a' b' zs ws) by (done || lia).
      simpl. by rewrite Hz, Hw. }
    split_and!; intros Ha' Hb'; rewrite (Hex _ _ Ha' Hb') by (simpl; lia);
      reflexivity.
Qed.

(** ** The perpendicular unit vector of [[1, 0, 0]] *)


(** ** The remaining member functions *)

Section RestLemmas.
Context {T : Type} `{Scalar T}.
Local Abbreviation heap := (gmap loc (list (option T))).
Implicit Types (h : heap) (v : Vector) (xs ys : list T) (l : loc).

Lemma holds_nonempty h v xs : holds h v xs → 0 < _size v → ∃ l, _elem v = Some l.
Proof.
  intros [Hn Hv] Hpos. destruct (_elem v) as [l|]; [by exists l|].
  subst xs. simpl in Hn. lia.
Qed.

Lemma holds_overwritten h v xs ys :
  holds h v xs → length ys = _size v → holds (overwritten (_elem v) ys h) v ys.
Proof.
  intros [Hn Hv] Hlen. split; [done|]. unfold overwritten.
  destruct (_elem v) as [l|].
  - apply lookup_insert_eq.
  - subst xs. simpl in Hn. destruct ys; [done|simpl in Hlen; lia].
Qed.

(** A write through [operator[]] within range. *)
Lemma operator_index_assign_spec h v xs index x :
  holds h v xs → index < _size v →
  operator_index_assign v index x h
  = (Ok tt, overwritten (_elem v) (<[index := x]> xs) h).
Proof.
  intros Hxs Hi. pose proof (holds_length _ _ _ Hxs) as Hn.
  destruct (holds_nonempty h v xs Hxs ltac:(lia)) as [l Hl].
  unfold operator_index_assign. rewrite decide_False by lia.
  destruct Hxs as [_ Hv]. rewrite Hl in *. unfold store, overwritten.
  rewrite Hv, decide_True by (rewrite length_fmap; lia).
  by rewrite list_fmap_insert.
Qed.

Lemma operator_index_assign_out h v index x :
  _size v ≤ index →
  operator_index_assign v index x h = (Throw IndexOutOfRange, h).
Proof. intros Hi. unfold operator_index_assign. by rewrite decide_True. Qed.

(** [operator*(const T& scalar)] *)
Lemma operator_times_scalar_spec h this xs scalar :
  holds h this xs →
  let l := fresh (dom h) in
  operator_times_scalar this scalar h
  = (Ok {| _elem := Some l; _size := _size this |},
     <[l := Some <$> ((fun x => Tmul x scalar) <$> xs)]> h).
Proof.
  intros Hxs l. unfold operator_times_scalar.
  unfold bind at 1. rewrite Vector_fill_spec. fold l. simpl.
  unfold bind at 1.
  rewrite (map_loop h l this xs (fun x => Tmul x scalar)); [done| |done|].
  - apply fresh_lookup.
  - by rewrite length_fmap, length_replicate.
Qed.

(** [sqrt_elements]: the range test of [result[i]] never fails. *)
Lemma sqrt_elements_spec h this xs :
  holds h this xs →
  let l := fresh (dom h) in
  sqrt_elements this h
  = (Ok {| _elem := Some l; _size := _size this |},
     <[l := Some <$> (Tsqrt <$> xs)]> h).
Proof.
  intros Hxs l. pose proof (holds_length _ _ _ Hxs) as Hn.
  unfold sqrt_elements. unfold bind at 1. rewrite Vector_fill_spec. fold l.
  cbv zeta. unfold returned, bind at 1.
  rewrite (for_range_store l (fun i => Tsqrt (nth i xs T0)) _ h (_size this) 0
             (Some <$> replicate (_size this) T0)).
  - unfold ret. do 3 f_equal. simpl. f_equal.
    rewrite <- Hn, <- (length_fmap Tsqrt xs).
    apply seq_lookup_fmap. intros i y. rewrite list_lookup_fmap.
    intros Hy. destruct (xs !! i) as [x|] eqn:Hx; [|done].
    rewrite (nth_lookup_Some _ _ _ Hx). by injection Hy.
  - by rewrite length_fmap, length_replicate.
  - intros j cells' Hj Hlen' _. unfold bind.
    rewrite (load_holds _ this xs j (nth j xs T0)).
    + unfold operator_index_assign. simpl. rewrite decide_False by lia.
      apply store_insert. lia.
    + apply holds_insert_fresh; [apply fresh_lookup|done].
    + apply lookup_nth. lia.
Qed.

(** The loop of [operator=] into a buffer of the right size that is not the
    buffer of [other]. *)
Lemma assign_loop h l other ys cells :
  holds h other ys → _elem other ≠ Some l → length cells = _size other →
  for_range 0 (_size other) (fun i =>
    bind (load (_elem other) i) (fun x => store (Some l) i x))
    (<[l := cells]> h)
  = (Ok tt, <[l := Some <$> ys]> h).
Proof.
  intros Hys Hne Hlen. pose proof (holds_length _ _ _ Hys) as Hn.
  rewrite (for_range_store l (fun i => nth i ys T0) _ h (_size other) 0 cells).
  - do 3 f_equal. simpl. f_equal. rewrite <- Hn.
    apply seq_lookup_fmap. intros i y. apply nth_lookup_Some.
  - done.
  - intros j cells' Hj Hlen' _. unfold bind.
    rewrite (load_holds _ other ys j (nth j ys T0)).
    + apply store_insert. lia.
    + by apply holds_insert_ne.
    + apply lookup_nth. lia.
Qed.

Lemma operator_assign_same_size h this other xs ys :
  holds h this xs → holds h other ys →
  (∀ l, _elem this = Some l → _elem other ≠ Some l) →
  _size this = _size other →
  operator_assign false this other h
  = (Ok this, overwritten (_elem this) ys h).
Proof.
  intros Hxs Hys Hdisj Hsz.
  pose proof (holds_length _ _ _ Hxs) as Hn.
  unfold operator_assign. rewrite decide_False by (intros ?; done).
  unfold bind at 1, ret at 1. unfold bind at 1.
  destruct Hxs as [_ Hv]. unfold overwritten.
  destruct (_elem this) as [l|] eqn:Hl.
  - rewrite <- (insert_id h l _ Hv) at 1. rewrite Hsz.
    rewrite (assign_loop h l other ys); [done|done|by apply Hdisj|].
    rewrite length_fmap. lia.
  - subst xs. simpl in Hn. by rewrite <- Hn.
Qed.

Lemma operator_assign_resize h this other xs ys :
  holds h this xs → holds h other ys →
  (∀ l, _elem this = Some l → _elem other ≠ Some l) →
  _size this ≠ _size other →
  let h' := released (_elem this) h in
  let l := fresh (dom h') in
  operator_assign false this other h
  = (Ok {| _elem := Some l; _size := _size other |}, <[l := Some <$> ys]> h').
Proof.
  intros Hxs Hys Hdisj Hsz h' l.
  unfold operator_assign. rewrite decide_True by done.
  assert (delete_array (_elem this) h = (Ok tt, h')) as Hdel.
  { unfold delete_array, h', released. destruct Hxs as [_ Hv].
    destruct (_elem this) as [l0|]; [by rewrite Hv|done]. }
  assert (holds h' other ys) as Hys'.
  { unfold h', released. destruct (_elem this) as [l0|] eqn:Hl0; [|done].
    apply holds_delete_ne; [by apply Hdisj|done]. }
  unfold bind at 1. unfold bind at 1. rewrite Hdel.
  unfold bind at 1, new_array, ret at 1. fold l. simpl.
  unfold bind at 1.
  rewrite (assign_loop h' l other ys); [done|done| |by rewrite length_replicate].
  destruct Hys' as [_ Hv]. intros Heq. rewrite Heq in Hv.
  pose proof (fresh_lookup h') as Hfr. fold l in Hfr. congruence.
Qed.

(** The loop of [operator<<] from index [i]. *)
Lemma shl_loop_spec {stream} (out : ostream T stream) h vector xs :
  holds h vector xs → (Z.of_nat (_size vector) < 2 ^ 64)%Z →
  ∀ n i os, i + n = _size vector →
    shl_loop out vector i n os h = (Ok (joined out (drop i xs) os), h).
Proof.
  intros Hxs Hbound. pose proof (holds_length _ _ _ Hxs) as Hn.
  induction n as [|n IH]; intros i os Hi; simpl.
  - by rewrite drop_ge by lia.
  - unfold bind. rewrite (load_holds _ vector xs i (nth i xs T0) Hxs)
      by (apply lookup_nth; lia).
    rewrite IH by lia.
    rewrite (drop_S xs (nth i xs T0) i) by (apply lookup_nth; lia).
    assert (size_t_sub (_size vector) 1 = Z.of_nat (_size vector) - 1)%Z as ->.
    { unfold size_t_sub. apply Z.mod_small. lia. }
    do 2 f_equal. destruct n as [|n].
    + rewrite decide_False by lia. by rewrite drop_ge by lia.
    + rewrite decide_True by lia.
      by rewrite (drop_S xs (nth (S i) xs T0) (S i)) by (apply lookup_nth; lia).
Qed.

End RestLemmas.

(** ** Construction, copying and destruction *)

(** X1: for a size within the array limit, [Vector(size, value)] returns a
    vector of dimension [size] in a newly allocated buffer; every index
    below [size] reads back [value] through [operator[]]; every buffer and
    every vector of the store it was called in is as it was.  This includes
    [size = 0], where the buffer is empty and not null. *)
Theorem Vector_fill_reads_back {T} `{Scalar T} `{ElementSize T}
    (h : gmap loc (list (option T))) (size : nat) (value : T) :
  array_fits (T := T) size →
  ∃ l, h !! l = None ∧
    (Vector_fill size value h).1 = Ok {| _elem := Some l; _size := size |} ∧
    holds (Vector_fill size value h).2 {| _elem := Some l; _size := size |}
      (replicate size value) ∧
    (∀ i, i < size →
       operator_index {| _elem := Some l; _size := size |} i
         (Vector_fill size value h).2
       = (Ok value, (Vector_fill size value h).2)) ∧
    (∀ u us, holds h u us → holds (Vector_fill size value h).2 u us).
Proof.
  intros _.
  exists (fresh (dom h)). rewrite Vector_fill_spec. cbn [fst snd].
  set (l := fresh (dom h)).
  assert (holds (<[l := Some <$> replicate size value]> h)
            {| _elem := Some l; _size := size |} (replicate size value)) as Hv.
  { apply holds_intro; [by rewrite length_replicate|apply lookup_insert_eq]. }
  split_and!; [apply fresh_lookup|done|done| |].
  - intros i Hi. unfold operator_index. simpl.
    rewrite decide_False by lia.
    apply (load_holds _ _ _ _ _ Hv). by apply lookup_replicate_2.
  - intros u us Hu. apply holds_insert_fresh; [apply fresh_lookup|done].
Qed.

(** X2: the copy constructor makes a deep copy.  The copy holds the elements
    of the original in a buffer of its own, and a later write through
    [operator[]] to either of the two leaves the other one as it was. *)
Theorem Vector_copy_deep {T} `{Scalar T}
    (h : gmap loc (list (option T))) (other : Vector) (xs : list T)
    (i : nat) (x : T) :
  holds h other xs → i < _size other →
  ∃ c h1,
    Vector_copy other h = (Ok c, h1) ∧
    holds h1 c xs ∧ holds h1 other xs ∧ _elem c ≠ _elem other ∧
    holds (operator_index_assign c i x h1).2 c (<[i := x]> xs) ∧
    holds (operator_index_assign c i x h1).2 other xs ∧
    holds (operator_index_assign other i x h1).2 other (<[i := x]> xs) ∧
    holds (operator_index_assign other i x h1).2 c xs.
Proof.
  intros Hxs Hi. pose proof (holds_length _ _ _ Hxs) as Hn.
  eexists _, _. split; [by apply Vector_copy_spec|].
  set (l := fresh (dom h)). pose proof (fresh_lookup h) as Hl. fold l in Hl.
  set (c := {| _elem := Some l; _size := _size other |}).
  set (h1 := <[l := Some <$> xs]> h).
  assert (holds h1 c xs) as Hc by (apply holds_intro; [done|apply lookup_insert_eq]).
  assert (holds h1 other xs) as Ho by (by apply holds_insert_fresh).
  assert (_elem other ≠ Some l) as Hne.
  { destruct Hxs as [_ Hv]. intros Heq. rewrite Heq in Hv. congruence. }
  destruct (holds_nonempty _ _ _ Ho ltac:(lia)) as [lo Hlo].
  assert (length (<[i := x]> xs) = _size other) as Hlen by (by rewrite length_insert).
  split_and!; [done|done|by intros Heq; rewrite <- Heq in Hne|..].
  - rewrite (operator_index_assign_spec h1 c xs i x Hc Hi). cbn [snd].
    by apply (holds_overwritten h1 c xs).
  - rewrite (operator_index_assign_spec h1 c xs i x Hc Hi). cbn [snd overwritten].
    simpl. by apply holds_insert_ne.
  - rewrite (operator_index_assign_spec h1 other xs i x Ho Hi). cbn [snd].
    by apply (holds_overwritten h1 other xs).
  - rewrite (operator_index_assign_spec h1 other xs i x Ho Hi). cbn [snd].
    unfold overwritten. rewrite Hlo. apply holds_insert_ne; [|done].
    simpl. congruence.
Qed.

(** X3: constructing a copy and destroying it again leaves the store exactly
    as it was: the destructor releases the one buffer the copy constructor
    allocated. *)
Theorem Vector_copy_destroy {T} `{Scalar T}
    (h : gmap loc (list (option T))) (other : Vector) (xs : list T) :
  holds h other xs →
  ∃ c h1, Vector_copy other h = (Ok c, h1) ∧ Vector_destroy c h1 = (Ok tt, h).
Proof.
  intros Hxs. eexists _, _. split; [by apply Vector_copy_spec|].
  rewrite (Vector_destroy_spec _ _ (fresh (dom h)) (Some <$> xs));
    [|done|apply lookup_insert_eq].
  by rewrite delete_insert_id by apply fresh_lookup.
Qed.

(** ** Writing through [operator[]] *)

(** X4: the assignment [v[index] = x] throws the out-of-range error exactly
    when [index] is not below the size, and then the store is as it was;
    otherwise it replaces the element at [index] and no other: reading
    [v[index]] afterwards gives [x], every other index reads what it read
    before, and no other buffer is changed. *)
Theorem operator_index_assign_contract {T} `{Scalar T}
    (h : gmap loc (list (option T))) (v : Vector) (xs : list T)
    (index : nat) (x : T) :
  holds h v xs →
  ((operator_index_assign v index x h).1 = Throw IndexOutOfRange
   ↔ _size v ≤ index) ∧
  (_size v ≤ index → (operator_index_assign v index x h).2 = h) ∧
  (index < _size v →
     (operator_index_assign v index x h).1 = Ok tt ∧
     holds (operator_index_assign v index x h).2 v (<[index := x]> xs) ∧
     (operator_index v index (operator_index_assign v index x h).2).1 = Ok x ∧
     (∀ j y, j ≠ index → xs !! j = Some y →
        (operator_index v j (operator_index_assign v index x h).2).1 = Ok y) ∧
     (∀ l, _elem v ≠ Some l →
        (operator_index_assign v index x h).2 !! l = h !! l)).
Proof.
  intros Hxs. pose proof (holds_length _ _ _ Hxs) as Hn.
  destruct (decide (_size v ≤ index)) as [Hge|Hlt].
  - rewrite operator_index_assign_out by done.
    split_and!; [done|done|lia].
  - rewrite (operator_index_assign_spec h v xs index x Hxs) by lia. cbn [fst snd].
    assert (holds (overwritten (_elem v) (<[index := x]> xs) h) v (<[index := x]> xs))
      as Hv' by (apply (holds_overwritten h v xs); [done|by rewrite length_insert]).
    split_and!; [split; [done|lia]|lia|].
    intros _. split_and!; [done|done|..].
    + unfold operator_index. rewrite decide_False by lia.
      rewrite (load_holds _ _ _ _ x Hv'); [done|].
      apply list_lookup_insert_eq. lia.
    + intros j y Hj Hy. unfold operator_index.
      pose proof (lookup_lt_Some _ _ _ Hy).
      rewrite decide_False by lia.
      rewrite (load_holds _ _ _ _ y Hv'); [done|].
      by rewrite list_lookup_insert_ne.
    + intros l Hl. unfold overwritten. destruct (_elem v) as [l'|]; [|done].
      apply lookup_insert_ne. congruence.
Qed.

(** ** Scaling and square roots *)

(** X5: [operator*(const T& scalar)] never throws: for every vector, the
    empty one included, it returns a vector of the same dimension in a newly
    allocated buffer holding every element multiplied by the scalar on the
    right, and the operand holds what it held. *)
Theorem operator_times_scalar_contract {T} `{Scalar T}
    (h : gmap loc (list (option T))) (v : Vector) (xs : list T) (scalar : T) :
  holds h v xs →
  (∃ l, h !! l = None ∧
     operator_times_scalar v scalar h
     = (Ok {| _elem := Some l; _size := _size v |},
        <[l := Some <$> ((fun x => Tmul x scalar) <$> xs)]> h)) ∧
  holds (operator_times_scalar v scalar h).2 v xs.
Proof.
  intros Hxs. rewrite (operator_times_scalar_spec h v xs scalar Hxs).
  split.
  - exists (fresh (dom h)). split; [apply fresh_lookup|done].
  - apply holds_insert_fresh; [apply fresh_lookup|done].
Qed.

(** X6: [sqrt_elements] never throws, although it writes the result through
    the range-checked [operator[]]: it returns a vector of the same
    dimension in a newly allocated buffer holding [std::sqrt] of every
    element, and the operand holds what it held. *)
Theorem sqrt_elements_contract {T} `{Scalar T}
    (h : gmap loc (list (option T))) (v : Vector) (xs : list T) :
  holds h v xs →
  (∃ l, h !! l = None ∧
     sqrt_elements v h
     = (Ok {| _elem := Some l; _size := _size v |},
        <[l := Some <$> (Tsqrt <$> xs)]> h)) ∧
  holds (sqrt_elements v h).2 v xs.
Proof.
  intros Hxs. rewrite (sqrt_elements_spec h v xs Hxs).
  split.
  - exists (fresh (dom h)). split; [apply fresh_lookup|done].
  - apply holds_insert_fresh; [apply fresh_lookup|done].
Qed.

(** ** Copy assignment *)

(** X7: [this = other] for two distinct objects that do not share a buffer.
    Afterwards [this] holds the elements of [other], [other] holds what it
    held, and the two still do not share a buffer.  On equal sizes the
    buffer of [this] is overwritten in place and nothing is allocated; on
    different sizes the old buffer is released and exactly one buffer is
    allocated.  No other buffer is changed, and nothing is thrown. *)
Theorem operator_assign_contract {T} `{Scalar T}
    (h : gmap loc (list (option T))) (this other : Vector) (xs ys : list T) :
  holds h this xs → holds h other ys →
  (∀ l, _elem this = Some l → _elem other ≠ Some l) →
  ∃ this' h',
    operator_assign false this other h = (Ok this', h') ∧
    holds h' this' ys ∧ holds h' other ys ∧
    (∀ l, _elem this' = Some l → _elem other ≠ Some l) ∧
    (_size this = _size other →
       this' = this ∧ h' = overwritten (_elem this) ys h) ∧
    (_size this ≠ _size other →
       ∃ l, released (_elem this) h !! l = None ∧
         this' = {| _elem := Some l; _size := _size other |} ∧
         h' = <[l := Some <$> ys]> (released (_elem this) h)) ∧
    (∀ l, _elem this ≠ Some l → _elem this' ≠ Some l → h' !! l = h !! l).
Proof.
  intros Hxs Hys Hdisj.
  pose proof (holds_length _ _ _ Hxs) as Hn.
  pose proof (holds_length _ _ _ Hys) as Hm.
  destruct (decide (_size this = _size other)) as [Hsz|Hsz].
  - eexists _, _. split; [by eapply operator_assign_same_size|].
    assert (holds (overwritten (_elem this) ys h) this ys) as Hthis
      by (apply (holds_overwritten h this xs); [done|lia]).
    split_and!; [done| |done|done|done|].
    + unfold overwritten. destruct (_elem this) as [l|] eqn:Hl; [|done].
      apply holds_insert_ne; [by apply Hdisj|done].
    + intros l Hl _. unfold overwritten. destruct (_elem this) as [l'|]; [|done].
      apply lookup_insert_ne. congruence.
  - eexists _, _. split; [by eapply operator_assign_resize|].
    set (h0 := released (_elem this) h).
    set (l := fresh (dom h0)). pose proof (fresh_lookup h0) as Hl. fold l in Hl.
    assert (holds h0 other ys) as Hys0.
    { unfold h0, released. destruct (_elem this) as [l0|] eqn:Hl0; [|done].
      apply holds_delete_ne; [by apply Hdisj|done]. }
    assert (_elem other ≠ Some l) as Hne.
    { destruct Hys0 as [_ Hv]. intros Heq. rewrite Heq in Hv. congruence. }
    split_and!.
    + apply holds_intro; [done|apply lookup_insert_eq].
    + by apply holds_insert_fresh.
    + simpl. intros l' [= <-]. done.
    + done.
    + intros _. by exists l.
    + simpl. intros l' Hl1 Hl2. rewrite lookup_insert_ne by congruence.
      unfold h0, released. destruct (_elem this) as [l0|]; [|done].
      apply lookup_delete_ne. congruence.
Qed.

(** ** Output *)

(** X8: [os << vector] reads the vector and leaves the store as it was.  On
    the stream it performs, in this order, the insertion of each element
    and, between two neighbouring elements, the insertion of [" "]: nothing
    is inserted before the first or after the last element, and nothing at
    all for an empty vector.  This holds in every state of the stream; what
    an insertion appends is the stream's matter. *)
Theorem operator_shl_joined {T} `{Scalar T} {stream} (out : ostream T stream)
    (h : gmap loc (list (option T))) (vector : Vector) (xs : list T)
    (os : stream) :
  holds h vector xs → (Z.of_nat (_size vector) < 2 ^ 64)%Z →
  operator_shl out os vector h = (Ok (joined out xs os), h).
Proof.
  intros Hxs Hbound. unfold operator_shl.
  rewrite (shl_loop_spec out h vector xs Hxs Hbound) by lia.
  by rewrite drop_0.
Qed.

(** ** Memory and errors of [find_pu_vector] *)

(** X9: on an integral or floating-point element type [find_pu_vector]
    releases every buffer it allocates except the one of the vector it
    returns.  When it throws, the exception is the zero-vector error and the
    store is exactly the one it was called in; when it returns, the vector
    has the dimension of the argument and its buffer is the only one added to
    the store. *)
Theorem find_pu_vector_no_leak {T} `{Scalar T} (gen : random_source T)
    (h : gmap loc (list (option T))) (a : Vector) (xs : list T) :
  holds h a xs → is_integral || is_floating_point = true →
  (∀ e, (find_pu_vector gen a h).1 = Throw e →
     e = ZeroVector ∧ (find_pu_vector gen a h).2 = h) ∧
  (∀ v, (find_pu_vector gen a h).1 = Ok v →
     Get_Dim v = Get_Dim a ∧
     ∃ l os, _elem v = Some l ∧ h !! l = None ∧ length os = Get_Dim a ∧
       (find_pu_vector gen a h).2 = <[l := Some <$> os]> h).
Proof.
  intros Hxs Hty. pose proof (holds_length _ _ _ Hxs) as Hn.
  destruct (find_pu_vector_spec h gen a xs Hxs) as (l & Hl & ->).
  rewrite Hty. cbv zeta.
  destruct (Teqb (length_squared xs) T0).
  { split; [by intros e [= <-]|by intros v [=]]. }
  set (bo := pu_orth _ _).
  destruct (Teqb (length_squared bo) T0).
  { split; [by intros e [= <-]|by intros v [=]]. }
  split; [by intros e [=]|].
  intros v [= <-]. split; [done|].
  exists l, (normalized bo). split_and!; [done|done| |done].
  unfold normalized, bo, pu_orth, draws, Get_Dim.
  rewrite length_fmap, !length_zip_with, !length_fmap, length_seq.
  unfold normalized. rewrite length_fmap. lia.
Qed.

(** X10: [find_pu_vector] throws the zero-vector error exactly when the sum
    of squares of the argument compares equal to [T(0)], or the sum of
    squares of the difference [b - (b * a_norm) * a_norm] does.  In the
    first case, which includes every empty and every all-zero argument of a
    lawful [T], it throws whatever the random draw is. *)
Theorem find_pu_vector_throws {T} `{Scalar T} (gen : random_source T)
    (h : gmap loc (list (option T))) (a : Vector) (xs : list T) :
  holds h a xs → is_integral || is_floating_point = true →
  ((find_pu_vector gen a h).1 = Throw ZeroVector ↔
     Teqb (length_squared xs) T0 = true ∨
     Teqb (length_squared
             (pu_orth (draws gen (_size a) Tm1 T1) (normalized xs))) T0 = true) ∧
  (Teqb (length_squared xs) T0 = true →
     ∀ gen', find_pu_vector gen' a h = (Throw ZeroVector, h)) ∧
  (LawfulScalar T → _size a = 0 →
     ∀ gen', find_pu_vector gen' a h = (Throw ZeroVector, h)).
Proof.
  intros Hxs Hty. pose proof (holds_length _ _ _ Hxs) as Hn.
  assert (Teqb (length_squared xs) T0 = true →
          ∀ gen', find_pu_vector gen' a h = (Throw ZeroVector, h)) as Hzero.
  { intros Hz gen'.
    destruct (find_pu_vector_spec h gen' a xs Hxs) as (l & Hl & ->).
    by rewrite Hz. }
  split_and!; [|done|].
  - destruct (find_pu_vector_spec h gen a xs Hxs) as (l & Hl & ->).
    rewrite Hty. cbv zeta.
    destruct (Teqb (length_squared xs) T0); [split; [by left|done]|].
    destruct (Teqb (length_squared _) T0); [split; [by right|done]|].
    split; [done|]. by intros [|].
  - intros HL Hsz. apply Hzero.
    destruct xs; [|simpl in Hn; lia].
    unfold length_squared. simpl. apply Teqb_T0.
Qed.

(** ** Not-a-number, infinities and overflow in [double] *)

Lemma SFcompare_refl (X : spec_float) : X ≠ S754_nan → SFcompare X X = Some Eq.
Proof.
  destruct X as [s|s| |s m e]; try done; intros _; simpl.
  - by destruct s.
  - rewrite Z.compare_refl. change (Pos.compare_cont Eq m m) with (Pos.compare m m).
    rewrite Pos.compare_refl. by destruct s.
Qed.

Lemma is_nan_Prim2SF (x : float) : is_nan x = true ↔ Prim2SF x = S754_nan.
Proof.
  unfold is_nan. rewrite negb_true_iff, FloatAxioms.eqb_spec. unfold SFeqb.
  split.
  - intros Hx. destruct (Prim2SF x) as [s|s| |s m e] eqn:HX; [..|done|];
      by rewrite SFcompare_refl in Hx.
  - by intros ->.
Qed.

(** [std::abs(d) > eps] is false when [d] is not a number. *)
Lemma abs_gt_eps_nan (d : float) : Prim2SF d = S754_nan → abs_gt_eps d = false.
Proof.
  intros Hd. simpl. by rewrite ltb_spec, abs_spec, Hd.
Qed.

Lemma sub_nan_l (x y : float) :
  Prim2SF x = S754_nan → Prim2SF (x - y) = S754_nan.
Proof. intros Hx. rewrite sub_spec, Hx. unfold SF64sub. by destruct (Prim2SF y). Qed.

Lemma sub_nan_r (x y : float) :
  Prim2SF y = S754_nan → Prim2SF (x - y) = S754_nan.
Proof.
  intros Hy. rewrite sub_spec, Hy. unfold SF64sub.
  by destruct (Prim2SF x) as [[]|[]| |].
Qed.

(** An element is within the tolerance of itself, whatever it is: the
    difference is zero, or not a number. *)
Lemma close_refl (x : float) : close x x = true.
Proof.
  unfold close. apply negb_true_iff. change (Tsub x x) with (x - x)%float.
  destruct (Prim2SF x) as [s|s| |s m e] eqn:Hx.
  - rewrite (sub_self x) by (unfold fin; by rewrite Hx). reflexivity.
  - apply abs_gt_eps_nan. rewrite sub_spec, Hx. by destruct s.
  - apply abs_gt_eps_nan. by apply sub_nan_l.
  - rewrite (sub_self x) by (unfold fin; by rewrite Hx). reflexivity.
Qed.

Lemma all_close_refl (xs : list float) : all_close xs xs = true.
Proof.
  unfold all_close. induction xs as [|x xs IH]; [done|].
  simpl. by rewrite close_refl, IH.
Qed.

Lemma all_close_nan (xs ys : list float) :
  Forall2 (fun x y => is_nan x = true ∨ is_nan y = true) xs ys →
  all_close xs ys = true.
Proof.
  unfold all_close. induction 1 as [|x y xs ys Hxy _ IH]; [done|].
  simpl. rewrite IH, andb_true_r. unfold close. apply negb_true_iff.
  apply abs_gt_eps_nan. destruct Hxy as [Hx|Hy].
  - apply sub_nan_l. by apply is_nan_Prim2SF.
  - apply sub_nan_r. by apply is_nan_Prim2SF.
Qed.

(** The square root of a number below zero is not a number. *)
Lemma sqrt_negative (x : float) :
  PrimFloat.ltb x 0 = true → is_nan (PrimFloat.sqrt x) = true.
Proof.
  rewrite ltb_spec. intros Hlt. apply is_nan_Prim2SF. rewrite sqrt_spec.
  change (Prim2SF 0) with (S754_zero false) in Hlt.
  unfold SFltb in Hlt. unfold SF64sqrt.
  destruct (Prim2SF x) as [s|s| |s m e]; try done; by destruct s.
Qed.

(** A finite number divided by infinity compares equal to zero; an infinity
    or a not-a-number divided by infinity is not a number. *)
Lemma div_infinity (x : float) :
  (fin x → PrimFloat.eqb (x / infinity) 0 = true) ∧
  (¬ fin x → is_nan (x / infinity) = true).
Proof.
  unfold fin. split; intros Hf.
  - rewrite FloatAxioms.eqb_spec, div_spec. unfold SF64div.
    change (Prim2SF infinity) with (S754_infinity false).
    by destruct (Prim2SF x) as [s|s| |s m e].
  - apply is_nan_Prim2SF. rewrite div_spec. unfold SF64div.
    change (Prim2SF infinity) with (S754_infinity false).
    by destruct (Prim2SF x) as [s|s| |s m e].
Qed.

(** X11: on [double], two vectors that hold the same elements compare equal
    with [==], whatever the elements are (infinities and not-a-number
    included); in particular every vector is equal to itself and to its
    copy. *)
Theorem operator_eq_same_elements (h : gmap loc (list (option float)))
    (a b : Vector) (xs : list float) :
  holds h a xs → holds h b xs →
  operator_eq a b h = (Ok true, h) ∧ operator_ne a b h = (Ok false, h).
Proof.
  intros Ha Hb.
  pose proof (holds_length _ _ _ Ha) as Hla.
  pose proof (holds_length _ _ _ Hb) as Hlb.
  assert (operator_eq a b h = (Ok true, h)) as Heq.
  { unfold operator_eq, size_t_sub. rewrite <- Hla, <- Hlb, Z.sub_diag.
    change (size_abs_gt_eps (0 mod 2 ^ 64)) with false. cbv iota.
    rewrite Hla.
    rewrite (eq_loop_spec h a b xs xs Ha Hb) by lia.
    by rewrite drop_0, all_close_refl. }
  split; [done|]. unfold operator_ne, bind. by rewrite Heq.
Qed.

(** X12: on [double], [==] treats a not-a-number element as equal to
    anything: two vectors of one size, below [2^64], compare equal when at
    every index one of the two elements is not a number. *)
Theorem operator_eq_nan (h : gmap loc (list (option float)))
    (a b : Vector) (xs ys : list float) :
  holds h a xs → holds h b ys → (Z.of_nat (_size a) < 2 ^ 64)%Z →
  Forall2 (fun x y => is_nan x = true ∨ is_nan y = true) xs ys →
  operator_eq a b h = (Ok true, h).
Proof.
  intros Ha Hb Hbound Hnan.
  pose proof (holds_length _ _ _ Ha) as Hla.
  pose proof (holds_length _ _ _ Hb) as Hlb.
  pose proof (Forall2_length _ _ _ Hnan) as Hlen.
  assert (_size a = _size b) as Hsz by lia.
  rewrite (operator_eq_spec h a b xs ys) by (done || lia).
  by rewrite bool_decide_true, all_close_nan.
Qed.

(** X13: on [double], [sqrt_elements] does not reject negative elements: it
    returns normally, and at every index where the operand is below zero
    the result is not a number. *)
Theorem sqrt_elements_negative (h : gmap loc (list (option float)))
    (v : Vector) (xs : list float) :
  holds h v xs →
  ∃ r rs,
    (sqrt_elements v h).1 = Ok r ∧ holds (sqrt_elements v h).2 r rs ∧
    length rs = length xs ∧
    ∀ i x, xs !! i = Some x → PrimFloat.ltb x 0 = true →
      ∃ y, rs !! i = Some y ∧ is_nan y = true.
Proof.
  intros Hxs. pose proof (holds_length _ _ _ Hxs) as Hn.
  rewrite (sqrt_elements_spec h v xs Hxs). cbn [fst snd].
  eexists _, (Tsqrt <$> xs). split_and!; [done| | |].
  - apply holds_intro; [by rewrite length_fmap|apply lookup_insert_eq].
  - by rewrite length_fmap.
  - intros i x Hx Hneg. exists (PrimFloat.sqrt x).
    split; [by rewrite list_lookup_fmap, Hx|by apply sqrt_negative].
Qed.

(** X14: on [double], [normalize] does not guard against overflow.  When
    the sum of squares is [+infinity], it returns normally and leaves a
    vector in which every element that was finite compares equal to zero and
    every other element is not a number. *)
Theorem normalize_overflow (h : gmap loc (list (option float)))
    (v : Vector) (xs : list float) :
  holds h v xs → length_squared xs = infinity →
  (normalize v h).1 = Ok tt ∧
  ∃ rs, holds (normalize v h).2 v rs ∧ length rs = length xs ∧
    ∀ i x, xs !! i = Some x →
      ∃ r, rs !! i = Some r ∧
        (fin x → PrimFloat.eqb r 0 = true) ∧ (¬ fin x → is_nan r = true).
Proof.
  intros Hxs Hinf. pose proof (holds_length _ _ _ Hxs) as Hn.
  rewrite (normalize_spec h v xs Hxs), Hinf.
  change (Teqb infinity T0) with false. cbv iota. cbn [fst snd].
  split; [done|]. exists (normalized xs).
  assert (length (normalized xs) = length xs) as Hlen
    by (unfold normalized; by rewrite length_fmap).
  split_and!; [|done|].
  - fold (overwritten (_elem v) (normalized xs) h).
    apply (holds_overwritten h v xs); [done|lia].
  - intros i x Hx. exists (x / infinity)%float. split; [|apply div_infinity].
    unfold normalized. rewrite list_lookup_fmap, Hx, Hinf. reflexivity.
Qed.

Lemma eqb_zero (s : float) :
  PrimFloat.eqb s 0 = true ↔ s = 0%float ∨ s = neg_zero.
Proof.
  rewrite FloatAxioms.eqb_spec. change (Prim2SF 0) with (S754_zero false).
  split.
  - intros Hs. destruct (Prim2SF s) as [b|b| |b m e] eqn:HS; try done;
      try (by destruct b).
    destruct b; [right|left]; by apply Prim2SF_inj.
  - by intros [->| ->].
Qed.

Lemma div_nan_r (x y : float) : is_nan y = true → is_nan (x / y) = true.
Proof.
  rewrite !is_nan_Prim2SF, div_spec. intros ->. unfold SF64div.
  by destruct (Prim2SF x).
Qed.

(** X15: on [double], [operator/] throws the division error for the scalars
    [+0.0] and [-0.0] and for no other; a scalar that is not a number is
    accepted, and the vector returned then holds not-a-number at every
    index. *)
Theorem operator_div_zero_double (h : gmap loc (list (option float)))
    (v : Vector) (xs : list float) (scalar : float) :
  holds h v xs →
  ((operator_div v scalar h).1 = Throw DivideByZero
   ↔ scalar = 0%float ∨ scalar = neg_zero) ∧
  (is_nan scalar = true →
     ∃ r rs, (operator_div v scalar h).1 = Ok r ∧
       holds (operator_div v scalar h).2 r rs ∧ length rs = length xs ∧
       Forall (fun y => is_nan y = true) rs).
Proof.
  intros Hxs. pose proof (holds_length _ _ _ Hxs) as Hn.
  destruct (PrimFloat.eqb scalar 0) eqn:Hs.
  - assert (operator_div v scalar h = (Throw DivideByZero, h)) as ->.
    { unfold operator_div. change (Teqb scalar T0) with (PrimFloat.eqb scalar 0).
      by rewrite Hs. }
    split; [by rewrite <- eqb_zero|].
    intros Hnan. apply is_nan_Prim2SF in Hnan.
    rewrite FloatAxioms.eqb_spec, Hnan in Hs. done.
  - assert (Teqb scalar T0 = false) as Hs' by exact Hs.
    rewrite (operator_div_spec h v xs scalar Hxs Hs'). cbn [fst snd].
    split.
    + split; [done|]. rewrite <- eqb_zero. congruence.
    + intros Hnan. eexists _, _. split_and!; [done| | |].
      * apply holds_intro; [|apply lookup_insert_eq]. by rewrite length_fmap.
      * by rewrite length_fmap.
      * apply Forall_fmap, Forall_forall. intros x _. simpl.
        by apply div_nan_r.
Qed.

(** ** The theorems at the sample data *)

Lemma operator_index_contract_witness :
  holds Sample.store Sample.v34 [3; 4]%float ∧
  ((operator_index Sample.v34 1 Sample.store).1 = Throw IndexOutOfRange
   ↔ _size Sample.v34 ≤ 1) ∧
  (1 < _size Sample.v34 →
     ∃ x, [3; 4]%float !! 1 = Some x ∧
          (operator_index Sample.v34 1 Sample.store).1 = Ok x) ∧
  (operator_index Sample.v34 1 Sample.store).2 = Sample.store.
Proof.
  split; [by split|].
  apply (operator_index_contract Sample.store Sample.v34 [3; 4]%float 1).
  by split.
Defined.

Lemma elementwise_operators_witness :
  holds Sample.store Sample.v123 [1; 2; 3]%float ∧
  holds Sample.store Sample.v123_off [1.00001; 2; 3]%float ∧
  elementwise_contract operator_plus Tadd Sample.store Sample.v123
    Sample.v123_off [1; 2; 3]%float [1.00001; 2; 3]%float ∧
  elementwise_contract operator_minus Tsub Sample.store Sample.v123
    Sample.v123_off [1; 2; 3]%float [1.00001; 2; 3]%float ∧
  elementwise_contract operator_times Tmul Sample.store Sample.v123
    Sample.v123_off [1; 2; 3]%float [1.00001; 2; 3]%float.
Proof.
  split; [by split|]. split; [by split|].
  apply (elementwise_operators Sample.store Sample.v123 Sample.v123_off);
    by split.
Defined.

Lemma operator_div_contract_witness :
  holds Sample.store Sample.v34 [3; 4]%float ∧
  (operator_div Sample.v34 2%float Sample.store).1
  = Ok {| _elem := Some 8%positive; _size := 2 |} ∧
  holds (operator_div Sample.v34 2%float Sample.store).2 Sample.v34 [3; 4]%float ∧
  operator_div Sample.v34 0%float Sample.store = (Throw DivideByZero, Sample.store).
Proof.
  assert (holds Sample.store Sample.v34 [3; 4]%float) as Hh by (by split).
  destruct (operator_div_contract Sample.store Sample.v34 [3; 4]%float 2%float Hh)
    as (_ & _ & Hkeep & Hzero).
  split_and!; [exact Hh|reflexivity|exact Hkeep|exact (Hzero double_lawful)].
Defined.

Lemma normalize_zero_vector_witness :
  holds Sample.store Sample.v00 [0; 0]%float ∧
  (normalize Sample.v00 Sample.store).1 = Throw ZeroVector ∧
  (normalize Sample.v00 Sample.store).2 = Sample.store.
Proof.
  assert (holds Sample.store Sample.v00 [0; 0]%float) as Hh by (by split).
  destruct (normalize_zero_vector Sample.store Sample.v00 [0; 0]%float Hh)
    as (Hiff & Hsame & _).
  assert ((normalize Sample.v00 Sample.store).1 = Throw ZeroVector) as Hthrow
    by (apply Hiff; reflexivity).
  split_and!; [exact Hh|exact Hthrow|exact (Hsame Hthrow)].
Defined.

Lemma normalize_divides_witness :
  holds Sample.store Sample.v34 [3; 4]%float ∧
  Teqb (length_squared [3; 4]%float) T0 = false ∧
  (normalize Sample.v34 Sample.store).1 = Ok tt ∧
  holds (normalize Sample.v34 Sample.store).2 Sample.v34 [0.6; 0.8]%float.
Proof.
  assert (holds Sample.store Sample.v34 [3; 4]%float) as Hh by (by split).
  assert (Teqb (length_squared [3; 4]%float) T0 = false) as Hnz
    by (vm_compute; reflexivity).
  destruct (normalize_divides Sample.store Sample.v34 [3; 4]%float Hh Hnz)
    as [(Hok & Hres & _) _].
  split_and!; [exact Hh|exact Hnz|exact Hok|exact Hres].
Defined.



Lemma find_pu_vector_frame_witness :
  holds Sample.store Sample.e1 [1; 0; 0]%float ∧
  (find_pu_vector Sample.gen Sample.e1 Sample.store).1 ≠ Fault ∧
  (∀ l cells, Sample.store !! l = Some cells →
     (find_pu_vector Sample.gen Sample.e1 Sample.store).2 !! l = Some cells) ∧
  holds (find_pu_vector Sample.gen Sample.e1 Sample.store).2 Sample.e1
    [1; 0; 0]%float.
Proof.
  split; [by split|].
  apply (find_pu_vector_frame Sample.gen Sample.store Sample.e1 [1; 0; 0]%float).
  by split.
Defined.

Lemma operator_eq_symmetric_witness :
  (operator_eq Sample.v123 Sample.v12 Sample.store).1
  = (operator_eq Sample.v12 Sample.v123 Sample.store).1.
Proof.
  apply (operator_eq_symmetric Sample.store Sample.v123 Sample.v12
           [1; 2; 3]%float [1; 2]%float).
  - by split.
  - by split.
  - simpl. lia.
  - simpl. lia.
Defined.

(** The example of C3 as it was stated fails on [double]: the binary64 value
    of [1.00001] is [1 + 45035996274 * 2^-52], so the difference from [1.0]
    is about [1.0000000000066e-5], which is greater than the binary64 value
    of [1.0E-5]. *)
Lemma operator_eq_example_counterexample :
  holds Sample.store Sample.v123 [1; 2; 3]%float ∧
  holds Sample.store Sample.v123_off [1.00001; 2; 3]%float ∧
  (operator_eq Sample.v123 Sample.v123_off Sample.store).1 ≠ Ok true.
Proof. split; [by split|]. split; [by split|]. vm_compute. discriminate. Qed.

Lemma operator_eq_contract_witness :
  holds Sample.store Sample.v123 [1; 2; 3]%float ∧
  holds Sample.store Sample.v123_near [1.000001; 2; 3]%float ∧
  ∃ r, operator_eq Sample.v123 Sample.v123_near Sample.store
       = (Ok r, Sample.store) ∧
       operator_ne Sample.v123 Sample.v123_near Sample.store
       = (Ok (negb r), Sample.store).
Proof.
  assert (holds Sample.store Sample.v123 [1; 2; 3]%float) as Ha by (by split).
  assert (holds Sample.store Sample.v123_near [1.000001; 2; 3]%float) as Hb
    by (by split).
  destruct (operator_eq_contract Sample.store Sample.v123 Sample.v123_near
              [1; 2; 3]%float [1.000001; 2; 3]%float Ha Hb)
    as ((r & Heq & Hne & _) & _); [simpl; lia|simpl; lia|].
  split_and!; [exact Ha|exact Hb|]. exists r. by split.
Defined.


Lemma Vector_fill_reads_back_witness :
  array_fits (T := float) 2 ∧
  ∃ l, Sample.store !! l = None ∧
    (Vector_fill 2 2.5%float Sample.store).1
      = Ok {| _elem := Some l; _size := 2 |} ∧
    holds (Vector_fill 2 2.5%float Sample.store).2
      {| _elem := Some l; _size := 2 |} [2.5; 2.5]%float.
Proof.
  assert (array_fits (T := float) 2) as Hfit by (by vm_compute).
  split; [exact Hfit|].
  destruct (Vector_fill_reads_back Sample.store 2 2.5%float Hfit)
    as (l & Hl & Hok & Hh & _).
  exists l. split_and!; [exact Hl|exact Hok|exact Hh].
Defined.

Lemma Vector_copy_deep_witness :
  holds Sample.store Sample.v34 [3; 4]%float ∧
  ∃ c h1,
    Vector_copy Sample.v34 Sample.store = (Ok c, h1) ∧
    holds h1 c [3; 4]%float ∧ holds h1 Sample.v34 [3; 4]%float ∧
    _elem c ≠ _elem Sample.v34 ∧
    holds (operator_index_assign c 1 7%float h1).2 c [3; 7]%float ∧
    holds (operator_index_assign c 1 7%float h1).2 Sample.v34 [3; 4]%float ∧
    holds (operator_index_assign Sample.v34 1 7%float h1).2 Sample.v34 [3; 7]%float ∧
    holds (operator_index_assign Sample.v34 1 7%float h1).2 c [3; 4]%float.
Proof.
  assert (holds Sample.store Sample.v34 [3; 4]%float) as Hh by (by split).
  split; [exact Hh|].
  apply (Vector_copy_deep Sample.store Sample.v34 [3; 4]%float 1 7%float Hh).
  simpl. lia.
Defined.

Lemma Vector_copy_destroy_witness :
  holds Sample.store Sample.v123 [1; 2; 3]%float ∧
  ∃ c h1, Vector_copy Sample.v123 Sample.store = (Ok c, h1) ∧
          Vector_destroy c h1 = (Ok tt, Sample.store).
Proof.
  assert (holds Sample.store Sample.v123 [1; 2; 3]%float) as Hh by (by split).
  split; [exact Hh|].
  apply (Vector_copy_destroy Sample.store Sample.v123 [1; 2; 3]%float Hh).
Defined.

Lemma operator_index_assign_contract_witness :
  holds Sample.store Sample.v123 [1; 2; 3]%float ∧
  (operator_index_assign Sample.v123 0 9%float Sample.store).1 = Ok tt ∧
  holds (operator_index_assign Sample.v123 0 9%float Sample.store).2
    Sample.v123 [9; 2; 3]%float ∧
  (operator_index Sample.v123 0
     (operator_index_assign Sample.v123 0 9%float Sample.store).2).1 = Ok 9%float.
Proof.
  assert (holds Sample.store Sample.v123 [1; 2; 3]%float) as Hh by (by split).
  destruct (operator_index_assign_contract Sample.store Sample.v123
              [1; 2; 3]%float 0 9%float Hh) as (_ & _ & Hin).
  destruct (Hin ltac:(simpl; lia)) as (Hok & Hholds & Hread & _).
  split_and!; [exact Hh|exact Hok|exact Hholds|exact Hread].
Defined.

Lemma operator_times_scalar_contract_witness :
  holds Sample.store Sample.v34 [3; 4]%float ∧
  (∃ l, Sample.store !! l = None ∧
     operator_times_scalar Sample.v34 2%float Sample.store
     = (Ok {| _elem := Some l; _size := 2 |},
        <[l := Some <$> [6; 8]%float]> Sample.store)) ∧
  holds (operator_times_scalar Sample.v34 2%float Sample.store).2
    Sample.v34 [3; 4]%float.
Proof.
  assert (holds Sample.store Sample.v34 [3; 4]%float) as Hh by (by split).
  split; [exact Hh|].
  exact (operator_times_scalar_contract Sample.store Sample.v34 [3; 4]%float
           2%float Hh).
Defined.

Lemma sqrt_elements_contract_witness :
  holds Sample.store Sample.v34 [3; 4]%float ∧
  (∃ l, Sample.store !! l = None ∧
     sqrt_elements Sample.v34 Sample.store
     = (Ok {| _elem := Some l; _size := 2 |},
        <[l := Some <$> [PrimFloat.sqrt 3; 2]%float]> Sample.store)) ∧
  holds (sqrt_elements Sample.v34 Sample.store).2 Sample.v34 [3; 4]%float.
Proof.
  assert (holds Sample.store Sample.v34 [3; 4]%float) as Hh by (by split).
  split; [exact Hh|].
  exact (sqrt_elements_contract Sample.store Sample.v34 [3; 4]%float Hh).
Defined.

Lemma operator_assign_contract_witness :
  holds Sample.store Sample.v34 [3; 4]%float ∧
  holds Sample.store Sample.v123 [1; 2; 3]%float ∧
  ∃ this' h',
    operator_assign false Sample.v34 Sample.v123 Sample.store = (Ok this', h') ∧
    holds h' this' [1; 2; 3]%float ∧ holds h' Sample.v123 [1; 2; 3]%float ∧
    _size this' = 3.
Proof.
  assert (holds Sample.store Sample.v34 [3; 4]%float) as Ha by (by split).
  assert (holds Sample.store Sample.v123 [1; 2; 3]%float) as Hb by (by split).
  split; [exact Ha|]. split; [exact Hb|].
  destruct (operator_assign_contract Sample.store Sample.v34 Sample.v123
              [3; 4]%float [1; 2; 3]%float Ha Hb)
    as (this' & h' & Hrun & Hthis & Hother & _ & _ & Hresize & _).
  { intros l [= <-]. simpl. congruence. }
  destruct (Hresize ltac:(simpl; lia)) as (l & Hl & -> & ->).
  exists {| _elem := Some l; _size := 3 |},
         (<[l := Some <$> [1; 2; 3]%float]> (released (_elem Sample.v34) Sample.store)).
  split_and!; [exact Hrun|exact Hthis|exact Hother|reflexivity].
Defined.

Lemma operator_shl_joined_witness :
  holds Edge.store Edge.v_neg [-4; 9]%float ∧
  operator_shl Edge.sign_stream
    {| Edge.written := "v ="; Edge.width := 3; Edge.failed := false |}
    Edge.v_neg Edge.store
  = (Ok {| Edge.written := "v =  - +"; Edge.width := 0; Edge.failed := false |},
     Edge.store) ∧
  operator_shl Edge.sign_stream
    {| Edge.written := "v ="; Edge.width := 3; Edge.failed := true |}
    Edge.v_neg Edge.store
  = (Ok {| Edge.written := "v ="; Edge.width := 3; Edge.failed := true |},
     Edge.store).
Proof.
  assert (holds Edge.store Edge.v_neg [-4; 9]%float) as Hh by (by split).
  assert (Z.of_nat (_size Edge.v_neg) < 2 ^ 64)%Z as Hb by (simpl; lia).
  split; [exact Hh|]. split.
  - exact (operator_shl_joined Edge.sign_stream Edge.store Edge.v_neg
             [-4; 9]%float _ Hh Hb).
  - exact (operator_shl_joined Edge.sign_stream Edge.store Edge.v_neg
             [-4; 9]%float _ Hh Hb).
Defined.

Lemma find_pu_vector_no_leak_witness :
  holds Sample.store Sample.e1 [1; 0; 0]%float ∧
  (∀ e, (find_pu_vector Sample.gen Sample.e1 Sample.store).1 = Throw e →
     e = ZeroVector ∧
     (find_pu_vector Sample.gen Sample.e1 Sample.store).2 = Sample.store) ∧
  (∀ v, (find_pu_vector Sample.gen Sample.e1 Sample.store).1 = Ok v →
     Get_Dim v = Get_Dim Sample.e1 ∧
     ∃ l os, _elem v = Some l ∧ Sample.store !! l = None ∧
       length os = Get_Dim Sample.e1 ∧
       (find_pu_vector Sample.gen Sample.e1 Sample.store).2
       = <[l := Some <$> os]> Sample.store).
Proof.
  assert (holds Sample.store Sample.e1 [1; 0; 0]%float) as Hh by (by split).
  split; [exact Hh|].
  apply (find_pu_vector_no_leak Sample.gen Sample.store Sample.e1
           [1; 0; 0]%float Hh).
  reflexivity.
Defined.

Lemma find_pu_vector_throws_witness :
  holds Sample.store Sample.v00 [0; 0]%float ∧
  Teqb (length_squared [0; 0]%float) T0 = true ∧
  ∀ gen', find_pu_vector gen' Sample.v00 Sample.store
          = (Throw ZeroVector, Sample.store).
Proof.
  assert (holds Sample.store Sample.v00 [0; 0]%float) as Hh by (by split).
  assert (Teqb (length_squared [0; 0]%float) T0 = true) as Hz by reflexivity.
  pose proof (find_pu_vector_throws Sample.gen Sample.store Sample.v00
                [0; 0]%float Hh) as Hthrows.
  destruct (Hthrows eq_refl) as (_ & Hzero & _).
  split_and!; [exact Hh|exact Hz|exact (Hzero Hz)].
Defined.

Lemma operator_eq_same_elements_witness :
  holds Edge.store Edge.v_nan_1 [nan; 1]%float ∧
  operator_eq Edge.v_nan_1 Edge.v_nan_1 Edge.store = (Ok true, Edge.store) ∧
  operator_ne Edge.v_nan_1 Edge.v_nan_1 Edge.store = (Ok false, Edge.store).
Proof.
  assert (holds Edge.store Edge.v_nan_1 [nan; 1]%float) as Hh by (by split).
  split; [exact Hh|].
  apply (operator_eq_same_elements Edge.store Edge.v_nan_1 Edge.v_nan_1
           [nan; 1]%float Hh Hh).
Defined.

Lemma operator_eq_nan_witness :
  holds Edge.store Edge.v_nan_1 [nan; 1]%float ∧
  holds Edge.store Edge.v_5_nan [5; nan]%float ∧
  operator_eq Edge.v_nan_1 Edge.v_5_nan Edge.store = (Ok true, Edge.store).
Proof.
  assert (holds Edge.store Edge.v_nan_1 [nan; 1]%float) as Ha by (by split).
  assert (holds Edge.store Edge.v_5_nan [5; nan]%float) as Hb by (by split).
  split; [exact Ha|]. split; [exact Hb|].
  apply (operator_eq_nan Edge.store Edge.v_nan_1 Edge.v_5_nan
           [nan; 1]%float [5; nan]%float Ha Hb).
  - simpl. lia.
  - constructor; [left; reflexivity|].
    constructor; [right; reflexivity|]. constructor.
Defined.

Lemma sqrt_elements_negative_witness :
  holds Edge.store Edge.v_neg [-4; 9]%float ∧
  ∃ r rs,
    (sqrt_elements Edge.v_neg Edge.store).1 = Ok r ∧
    holds (sqrt_elements Edge.v_neg Edge.store).2 r rs ∧
    length rs = 2 ∧
    ∀ i x, [-4; 9]%float !! i = Some x → PrimFloat.ltb x 0 = true →
      ∃ y, rs !! i = Some y ∧ is_nan y = true.
Proof.
  assert (holds Edge.store Edge.v_neg [-4; 9]%float) as Hh by (by split).
  split; [exact Hh|].
  apply (sqrt_elements_negative Edge.store Edge.v_neg [-4; 9]%float Hh).
Defined.

Lemma normalize_overflow_witness :
  holds Edge.store Edge.v_big [1e200; 1e200]%float ∧
  length_squared [1e200; 1e200]%float = infinity ∧
  (normalize Edge.v_big Edge.store).1 = Ok tt ∧
  ∃ rs, holds (normalize Edge.v_big Edge.store).2 Edge.v_big rs ∧
    length rs = 2 ∧
    ∀ i x, [1e200; 1e200]%float !! i = Some x →
      ∃ r, rs !! i = Some r ∧
        (fin x → PrimFloat.eqb r 0 = true) ∧ (¬ fin x → is_nan r = true).
Proof.
  assert (holds Edge.store Edge.v_big [1e200; 1e200]%float) as Hh by (by split).
  assert (length_squared [1e200; 1e200]%float = infinity) as Hinf by reflexivity.
  split; [exact Hh|]. split; [exact Hinf|].
  apply (normalize_overflow Edge.store Edge.v_big [1e200; 1e200]%float Hh Hinf).
Defined.

Lemma operator_div_zero_double_witness :
  holds Sample.store Sample.v34 [3; 4]%float ∧
  (operator_div Sample.v34 neg_zero Sample.store).1 = Throw DivideByZero ∧
  ∃ r rs, (operator_div Sample.v34 nan Sample.store).1 = Ok r ∧
    holds (operator_div Sample.v34 nan Sample.store).2 r rs ∧
    length rs = 2 ∧ Forall (fun y => is_nan y = true) rs.
Proof.
  assert (holds Sample.store Sample.v34 [3; 4]%float) as Hh by (by split).
  split; [exact Hh|]. split.
  - apply (operator_div_zero_double Sample.store Sample.v34 [3; 4]%float
             neg_zero Hh). by right.
  - apply (operator_div_zero_double Sample.store Sample.v34 [3; 4]%float
             nan Hh). reflexivity.
Defined.
